(** * EventHub RSVP: the registration engine of the events router

    A shallow embedding of the Express handlers of [/api/events] that
    create, edit, delete, join ([POST /:id/rsvp]) and leave
    ([POST /:id/unrsvp]) an event, over an in-memory model of the [Event]
    collection, and the properties the design document states about them.

    Conventions of the model.
    - An [ObjectId] is represented by its 24-digit hexadecimal string, the
      value [String(oid)] yields in the source; [req.user.id] is such an
      id, and a route parameter is one once the store has cast it (the
      routes with their cast and [catch] are [post_rsvp], [post_unrsvp],
      [get_by_id], [put_by_id] and [delete_by_id]).
    - The collection is a finite map from [_id] to document.  Every store
      call ([findById], [findOneAndUpdate], [save], [deleteOne], [create])
      is one atomic step on it and does not fail for want of a connection;
      a handler is the sequence of its store calls.
    - A JS [Number] holding a capacity is an integer of [Z].
    - The [createdAt]/[updatedAt] stamps of the schema need a clock and are
      read by no handler; they are left out of the document. *)

From stdpp Require Import gmap strings list fin_maps sorting.
From Stdlib Require Import ZArith Ascii.

#[local] Open Scope string_scope.
#[local] Open Scope list_scope.

(** ** Documents and the collection *)

Abbreviation ObjectId := string (only parsing).

(** [eventSchema] of [models/Event.js]; [dateTime] is the time value of the
    stored [Date]. *)
Record Event := mkEvent {
  title : string;
  description : string;
  dateTime : Z;
  location : string;
  capacity : Z;
  category : string;
  imageData : option string;
  imageContentType : option string;
  createdBy : ObjectId;
  attendees : list ObjectId
}.

Abbreviation Store := (gmap string Event) (only parsing).

Definition set_attendees (f : list ObjectId → list ObjectId) (e : Event) : Event :=
  mkEvent (title e) (description e) (dateTime e) (location e) (capacity e)
          (category e) (imageData e) (imageContentType e) (createdBy e)
          (f (attendees e)).

(** ** Responses *)

(** The three shapes the handlers pass to [res.json]. *)
Inductive Json :=
  | JMessage (message : string)
  | JEvent (_id : ObjectId) (doc : Event)
  | JEventCount (_id : ObjectId) (doc : Event) (attendeeCount : nat).

Record Response := mkResponse { status : nat; body : Json }.

(** [res.status(code).json({ message })] *)
Definition reply (code : nat) (message : string) : Response :=
  mkResponse code (JMessage message).

(** [res.json(x)]: status 200. *)
Definition ok (x : Json) : Response := mkResponse 200 x.

(** ** Store primitives *)

Definition findById (db : Store) (_id : ObjectId) : option Event := db !! _id.

(** [Event.findOneAndUpdate({ _id, ...cond }, upd, { new: true })]: when the
    document with this [_id] satisfies the rest of the filter, the update is
    applied and the updated document returned; otherwise nothing is written
    and the result is [null]. *)
Definition findOneAndUpdate (db : Store) (_id : ObjectId)
    (cond : Event → bool) (upd : Event → Event) : Store * option Event :=
  match db !! _id with
  | Some doc =>
      if cond doc then
        let doc' := upd doc in (<[_id := doc']> db, Some doc')
      else (db, None)
  | None => (db, None)
  end.

(** [{ $addToSet: { attendees: x } }] *)
Definition addToSet (x : ObjectId) (l : list ObjectId) : list ObjectId :=
  if decide (x ∈ l) then l else l ++ [x].

(** [{ $pull: { attendees: x } }]: every occurrence is removed. *)
Definition pull (x : ObjectId) (l : list ObjectId) : list ObjectId :=
  filter (λ a, a ≠ x) l.

(** [attendees: { $ne: userId }] on an array field: no element equals it. *)
Definition ne_attendee (userId : ObjectId) (doc : Event) : bool :=
  bool_decide (userId ∉ attendees doc).

(** [$expr: { $lt: [{ $size: "$attendees" }, "$capacity"] }] *)
Definition size_lt_capacity (doc : Event) : bool :=
  bool_decide (Z.of_nat (length (attendees doc)) < capacity doc)%Z.

(** The filter of the join, less its [_id] clause. *)
Definition rsvp_filter (userId : ObjectId) (doc : Event) : bool :=
  ne_attendee userId doc && size_lt_capacity doc.

(** [updated.attendees?.length || 0] *)
Definition attendeeCount (doc : Event) : nat := length (attendees doc).

(** [{ ...updated, attendeeCount }] *)
Definition withCount (_id : ObjectId) (doc : Event) : Json :=
  JEventCount _id doc (attendeeCount doc).

(** ** POST /:id/rsvp *)

Definition msg_not_found := "Event not found".
Definition msg_already := "You have already RSVPed to this event".
Definition msg_full := "Event is already full".
Definition msg_retry := "Unable to RSVP. Please try again.".

(** [existing.attendees?.some((a) => String(a) === String(userId))] *)
Definition alreadyJoined (existing : Event) (userId : ObjectId) : bool :=
  existsb (λ a, String.eqb a userId) (attendees existing).

(** The branch taken when the conditional update returned [null];
    [existing] is what the second read, [findById(eventId).lean()], found. *)
Definition rsvp_diagnose (existing : option Event) (userId : ObjectId) : Response :=
  match existing with
  | None => reply 404 msg_not_found
  | Some ex =>
      if alreadyJoined ex userId then reply 400 msg_already
      else if (capacity ex <=? Z.of_nat (attendeeCount ex))%Z then reply 400 msg_full
      else reply 400 msg_retry
  end.

(** The handler, from the cast of [req.params.id] to [eventId] on, with its
    two store calls apart: the conditional update runs on [db]; the
    diagnostic read, if it is reached, sees [later], the collection as
    other requests have left it in between. *)
Definition rsvp_at (db later : Store) (eventId userId : ObjectId) : Store * Response :=
  match findOneAndUpdate db eventId (rsvp_filter userId)
          (set_attendees (addToSet userId)) with
  | (db', Some updated) => (db', ok (withCount eventId updated))
  | (db', None) => (db', rsvp_diagnose (findById later eventId) userId)
  end.

(** The handler run without another request in between. *)
Definition rsvp (db : Store) (eventId userId : ObjectId) : Store * Response :=
  rsvp_at db db eventId userId.

(** ** POST /:id/unrsvp *)

(** The handler, from the cast of [req.params.id] to [eventId] on. *)
Definition unrsvp (db : Store) (eventId userId : ObjectId) : Store * Response :=
  match findOneAndUpdate db eventId (λ _, true)
          (set_attendees (pull userId)) with
  | (db', Some updated) => (db', ok (withCount eventId updated))
  | (db', None) => (db', reply 404 msg_not_found)
  end.

(** ** Request bodies *)

(** [req.body] of the create and edit forms, which the client sends as
    multipart form data: a field is absent or a string. *)
Record Body := mkBody {
  b_title : option string;
  b_description : option string;
  b_dateTime : option string;
  b_location : option string;
  b_capacity : option string;
  b_category : option string
}.

(** [req.file] as multer's memory storage leaves it, once the image filter
    has let it through; [base64] is [buffer.toString('base64')]. *)
Record File := mkFile { base64 : string; mimetype : string }.

(** The truthiness test [if (field)] on such a field: set and not empty. *)
Definition given (field : option string) : option string :=
  match field with
  | Some "" => None
  | other => other
  end.

(** *** [parseInt(s, 10)]

    A string is read as its code units, all below 256 here; of the white
    space the language strips, those are TAB, LF, VT, FF, CR, SP and NBSP. *)

Definition isWhiteSpace (c : ascii) : bool :=
  let n := nat_of_ascii c in
  bool_decide (n ∈ [9; 10; 11; 12; 13; 32; 160]%nat).

Fixpoint trimStart (s : string) : string :=
  match s with
  | String c rest => if isWhiteSpace c then trimStart rest else s
  | EmptyString => s
  end.

Definition digit (c : ascii) : option Z :=
  let n := nat_of_ascii c in
  if bool_decide (48 ≤ n ≤ 57)%nat then Some (Z.of_nat (n - 48)) else None.

(** The value of the longest prefix of decimal digits, [None] when that
    prefix is empty. *)
Fixpoint digits (acc : option Z) (s : string) : option Z :=
  match s with
  | String c rest =>
      match digit c with
      | Some d => digits (Some (10 * default 0 acc + d)%Z) rest
      | None => acc
      end
  | EmptyString => acc
  end.

(** [None] is [NaN]. *)
Definition parseInt (s : string) : option Z :=
  match trimStart s with
  | String "-" rest => Z.opp <$> digits None rest
  | String "+" rest => digits None rest
  | t => digits None t
  end.

Definition msg_capacity := "Capacity must be a positive number".
Definition msg_capacity_low := "Capacity cannot be less than current attendee count".
Definition msg_server := "Server error".

Section Handlers.

(** [new Date(s)] is left to the engine for all but a few formats: the time
    value it yields, [None] for an invalid date (which the schema's [Date]
    path refuses when the document is validated). *)
Variable parseDate : string → option Z.

(** ** POST / *)

(** [newId] is the [_id] the driver draws for the new document; an insert
    under a key in use raises, as does a validation failure, and the
    handler's [catch] answers 500. *)
Definition create_event (db : Store) (user newId : ObjectId)
    (b : Body) (file : option File) : Store * Response :=
  match given (b_title b), given (b_description b), given (b_dateTime b),
        given (b_location b), given (b_capacity b) with
  | Some t, Some d, Some dt, Some l, Some c =>
      match parseInt c with
      | None => (db, reply 400 msg_capacity)
      | Some parsedCapacity =>
          if (parsedCapacity <? 1)%Z then (db, reply 400 msg_capacity)
          else
            match parseDate dt, db !! newId with
            | Some when, None =>
                let event :=
                  mkEvent t d when l parsedCapacity "General"
                          (base64 <$> file) (mimetype <$> file) user [] in
                (<[newId := event]> db, mkResponse 201 (JEvent newId event))
            | _, _ => (db, reply 500 msg_server)
            end
      end
  | _, _, _, _, _ => (db, reply 400 "All fields are required")
  end.

(** ** PUT /:id *)

(** [if (field) event.path = field] *)
Definition assign (field : option string) (old : string) : string :=
  match given field with
  | Some s => s
  | None => old
  end.

(** The [if (capacity) { ... }] block: the response it returns early, or the
    capacity the document holds after it. *)
Definition check_capacity (event : Event) (field : option string) : Response + Z :=
  match given field with
  | Some c =>
      match parseInt c with
      | None => inl (reply 400 msg_capacity)
      | Some parsedCapacity =>
          if (parsedCapacity <? 1)%Z then inl (reply 400 msg_capacity)
          else if (parsedCapacity <? Z.of_nat (length (attendees event)))%Z
          then inl (reply 400 msg_capacity_low)
          else inr parsedCapacity
      end
  | None => inr (capacity event)
  end.

Definition update_event (db : Store) (user eventId : ObjectId)
    (b : Body) (file : option File) : Store * Response :=
  match findById db eventId with
  | None => (db, reply 404 msg_not_found)
  | Some event =>
      if negb (String.eqb (createdBy event) user)
      then (db, reply 403 "Not authorized to edit this event")
      else
        match check_capacity event (b_capacity b) with
        | inl early => (db, early)
        | inr cap =>
            let date :=
              match given (b_dateTime b) with
              | Some dt => parseDate dt
              | None => Some (dateTime event)
              end in
            match date with
            | None => (db, reply 500 msg_server)
            | Some when =>
                let event' :=
                  mkEvent (assign (b_title b) (title event))
                          (assign (b_description b) (description event))
                          when
                          (assign (b_location b) (location event))
                          cap
                          (assign (b_category b) (category event))
                          (if file is Some f then Some (base64 f)
                           else imageData event)
                          (if file is Some f then Some (mimetype f)
                           else imageContentType event)
                          (createdBy event)
                          (attendees event) in
                (<[eventId := event']> db, ok (JEvent eventId event'))
            end
        end
  end.

(** ** DELETE /:id *)

Definition delete_event (db : Store) (user eventId : ObjectId) : Store * Response :=
  match findById db eventId with
  | None => (db, reply 404 msg_not_found)
  | Some event =>
      if negb (String.eqb (createdBy event) user)
      then (db, reply 403 "Not authorized to delete this event")
      else (delete eventId db, ok (JMessage "Event deleted"))
  end.

(** ** Requests and runs *)

(** A request that has passed [authMiddleware]; [user] is [req.user.id]. *)
Inductive Request :=
  | Create (user newId : ObjectId) (b : Body) (file : option File)
  | Update (user eventId : ObjectId) (b : Body) (file : option File)
  | Delete (user eventId : ObjectId)
  | Join (user eventId : ObjectId)
  | Leave (user eventId : ObjectId).

Definition handle (db : Store) (r : Request) : Store * Response :=
  match r with
  | Create user newId b file => create_event db user newId b file
  | Update user eventId b file => update_event db user eventId b file
  | Delete user eventId => delete_event db user eventId
  | Join user eventId => rsvp db eventId user
  | Leave user eventId => unrsvp db eventId user
  end.

(** Requests served one after the other: the final collection and the
    responses in order. *)
Fixpoint serve (db : Store) (rs : list Request) : Store * list Response :=
  match rs with
  | [] => (db, [])
  | r :: rest =>
      let '(db1, resp) := handle db r in
      let '(db2, resps) := serve db1 rest in
      (db2, resp :: resps)
  end.

End Handlers.

(** ** Outcomes as the design document names them *)

Inductive Reason := NotFound | AlreadyJoined | Full | Conflict.

(** The response the join handler sends for each reason. *)
Definition reason_response (why : Reason) : Response :=
  match why with
  | NotFound => reply 404 msg_not_found
  | AlreadyJoined => reply 400 msg_already
  | Full => reply 400 msg_full
  | Conflict => reply 400 msg_retry
  end.

(** The [message] of a response body, when it has that shape. *)
Definition message_of (r : Response) : option string :=
  match body r with
  | JMessage m => Some m
  | _ => None
  end.

(** A join or leave reports success when it is answered with [res.json] of
    the updated document, status 200. *)
Definition succeeded (r : Response) : bool := bool_decide (status r = 200).

(** The number of distinct participants among [users] that are not in
    [members]. *)
Definition distinct_nonmembers (users members : list ObjectId) : nat :=
  size ((list_to_set users : gset string) ∖ list_to_set members).

(** Join requests of the participants [users], in order, on one event. *)
Definition ask (eventId : ObjectId) (users : list ObjectId) : list Request :=
  (λ u, Join u eventId) <$> users.

(** How many of the responses report success. *)
Definition successes (resps : list Response) : nat :=
  length (filter (λ r, succeeded r = true) resps).

(** ** Invariants of the collection *)

Definition no_duplicates (ev : Event) : Prop := NoDup (attendees ev).

Definition within_capacity (ev : Event) : Prop :=
  (Z.of_nat (length (attendees ev)) ≤ capacity ev)%Z.

Definition positive_capacity (ev : Event) : Prop := (1 ≤ capacity ev)%Z.

(** Every document of the collection satisfies [P]. *)
Definition every (P : Event → Prop) (db : Store) : Prop :=
  map_Forall (λ _, P) db.

(** ** What a request may do to the collection *)

(** The writes of the five handlers: nothing, one insert of a new event
    without attendees, one edit that keeps creator and attendees, one
    deletion, one attendee appended, one attendee pulled. *)
Inductive effect (db : Store) : Request → Store → Prop :=
  | eff_none r : effect db r db
  | eff_create user newId b file ev :
      db !! newId = None → attendees ev = [] → (1 ≤ capacity ev)%Z →
      createdBy ev = user →
      effect db (Create user newId b file) (<[newId := ev]> db)
  | eff_update user eventId b file ev ev' :
      db !! eventId = Some ev → createdBy ev = user →
      attendees ev' = attendees ev → createdBy ev' = createdBy ev →
      capacity ev' = capacity ev
      ∨ (1 ≤ capacity ev' ∧ Z.of_nat (length (attendees ev)) ≤ capacity ev')%Z →
      effect db (Update user eventId b file) (<[eventId := ev']> db)
  | eff_delete user eventId ev :
      db !! eventId = Some ev → createdBy ev = user →
      effect db (Delete user eventId) (delete eventId db)
  | eff_join user eventId ev :
      db !! eventId = Some ev → user ∉ attendees ev →
      (Z.of_nat (length (attendees ev)) < capacity ev)%Z →
      effect db (Join user eventId)
             (<[eventId := set_attendees (λ l, l ++ [user]) ev]> db)
  | eff_leave user eventId ev :
      db !! eventId = Some ev →
      effect db (Leave user eventId)
             (<[eventId := set_attendees (pull user) ev]> db).

(** ** Joins in flight *)

(** The join handler awaits twice, and other requests run while it waits:
    a request has arrived and not yet called the store, or its conditional
    update returned [null] and its diagnostic read is still to come, or it
    has been answered. *)
Inductive Flight :=
  | Arrived (userId : ObjectId)
  | Refused (userId : ObjectId)
  | Answered (resp : Response).

(** The next store call of a join in flight, on the collection as it is
    when the call is made. *)
Definition advance (db : Store) (eventId : ObjectId) (f : Flight) : Store * Flight :=
  match f with
  | Arrived userId =>
      match findOneAndUpdate db eventId (rsvp_filter userId)
              (set_attendees (addToSet userId)) with
      | (db', Some updated) => (db', Answered (ok (withCount eventId updated)))
      | (db', None) => (db', Refused userId)
      end
  | Refused userId =>
      (db, Answered (rsvp_diagnose (findById db eventId) userId))
  | Answered _ => (db, f)
  end.

(** The joins of [pool] on one event, interleaved: each entry of the
    schedule names the request whose next store call runs. *)
Fixpoint interleave (db : Store) (eventId : ObjectId) (pool : list Flight)
    (schedule : list nat) : Store * list Flight :=
  match schedule with
  | [] => (db, pool)
  | i :: rest =>
      match pool !! i with
      | Some f =>
          let '(db', f') := advance db eventId f in
          interleave db' eventId (<[i := f']> pool) rest
      | None => interleave db eventId pool rest
      end
  end.

(** The participants whose conditional update has not run yet. *)
Definition waiting (pool : list Flight) : list ObjectId :=
  omap (λ f, if f is Arrived u then Some u else None) pool.

(** The responses sent so far. *)
Definition answers (pool : list Flight) : list Response :=
  omap (λ f, if f is Answered r then Some r else None) pool.

Definition answered (f : Flight) : bool :=
  if f is Answered _ then true else false.

(** The joins that have succeeded, plus those that still can: the distinct
    waiting participants who are not attendees, as far as places are left. *)
Definition budget (ev : Event) (pool : list Flight) : nat :=
  (successes (answers pool)
   + distinct_nonmembers (waiting pool) (attendees ev)
     `min` Z.to_nat (capacity ev - Z.of_nat (length (attendees ev))))%nat.

(** [u] is among the attendees of event [e]. *)
Definition member (db : Store) (e u : ObjectId) : Prop :=
  ∃ ev, db !! e = Some ev ∧ u ∈ attendees ev.

(** ** Sample data *)

Module Sample.

Definition alice : ObjectId := "64b000000000000000000a11".
Definition bob : ObjectId := "64b000000000000000000b0b".
Definition carol : ObjectId := "64b000000000000000000ca7".
Definition dave : ObjectId := "64b000000000000000000da5".
Definition party : ObjectId := "64e000000000000000000001".
Definition picnic : ObjectId := "64e000000000000000000002".

(** An event of [carol]'s with [cap] places and the given attendees. *)
Definition event (cap : Z) (people : list ObjectId) : Event :=
  mkEvent "Party" "Bring a friend" 1767225600000 "Pier 7" cap "General"
          None None carol people.

Definition one (cap : Z) (people : list ObjectId) : Store :=
  {[ party := event cap people ]}.

(** An engine that reads every date as the epoch. *)
Definition epoch : string → option Z := λ _, Some 0%Z.

Definition capacity_only (c : string) : Body :=
  mkBody None None None None (Some c) None.

Definition form (c : string) : Body :=
  mkBody (Some "Picnic") (Some "Lunch outside") (Some "2026-06-01")
         (Some "Park") (Some c) None.

End Sample.

(** ** Reading the collection *)

(** The paths of a user document that [populate("createdBy", "name email")]
    selects. *)
Record User := mkUser { name : string; email : string }.

(** [createdBy] once populated. *)
Record Creator := mkCreator {
  creator_id : ObjectId;
  creator_name : string;
  creator_email : string
}.

(** What the reading routes send for an event: the lean document under its
    [_id], [createdBy] populated ([None] is the [null] left when no user
    has that id), and [attendeeCount]. *)
Record Listed := mkListed {
  l_id : ObjectId;
  l_doc : Event;
  l_createdBy : option Creator;
  l_attendeeCount : nat
}.

(** The answer of a reading route: [res.json(x)], or a status with a
    message. *)
Inductive Read (A : Type) :=
  | Found (x : A)
  | NotSent (code : nat) (message : string).
Arguments Found {A} x.
Arguments NotSent {A} code message.

Definition populate (users : gmap string User) (doc : Event) : option Creator :=
  (λ u, mkCreator (createdBy doc) (name u) (email u)) <$> users !! createdBy doc.

(** [{ ...e, attendeeCount: e.attendees?.length || 0 }] on a populated lean
    document. *)
Definition listed (users : gmap string User) (_id : ObjectId) (doc : Event) : Listed :=
  mkListed _id doc (populate users doc) (attendeeCount doc).

(** [.sort({ dateTime: 1 })] *)
Definition by_date : relation (ObjectId * Event) :=
  λ a b, (dateTime a.2 ≤ dateTime b.2)%Z.

#[local] Instance by_date_dec : RelDecision by_date :=
  λ a b, decide (dateTime a.2 ≤ dateTime b.2)%Z.

(** [Event.find(filter).sort({ dateTime: 1 })]: the documents that pass the
    filter, by ascending date. *)
Definition find (db : Store) (cond : Event → bool) : list (ObjectId * Event) :=
  merge_sort by_date (filter (λ kv, cond kv.2 = true) (map_to_list db)).

(** [GET /:id], from the cast of [req.params.id] to [_id] on. *)
Definition get_event (users : gmap string User) (db : Store) (_id : ObjectId)
    : Read Listed :=
  match findById db _id with
  | None => NotSent 404 msg_not_found
  | Some event => Found (listed users _id event)
  end.

(** [GET /my-events] and [GET /user/my-events]: [find({ createdBy })]. *)
Definition my_events (users : gmap string User) (db : Store) (user : ObjectId)
    : list Listed :=
  (λ kv, listed users kv.1 kv.2)
    <$> find db (λ doc, bool_decide (createdBy doc = user)).

(** [GET /attending] and [GET /user/attending]: [find({ attendees })], which
    on an array path asks for an element equal to the value. *)
Definition attending (users : gmap string User) (db : Store) (user : ObjectId)
    : list Listed :=
  (λ kv, listed users kv.1 kv.2)
    <$> find db (λ doc, bool_decide (user ∈ attendees doc)).

(** [req.query] of [GET /]. *)
Record Query := mkQuery {
  q_category : option string;
  q_startDate : option string;
  q_endDate : option string;
  q_search : option string
}.

Section Listing.

Variable parseDate : string → option Z.

(** [{ $regex: search, $options: "i" }]: the test the store compiles the
    pattern to, [None] for a pattern it refuses. *)
Variable regex : string → option (string → bool).

(** The filter [GET /] builds: the dates from [from] on, up to [upto] if
    set, of the category if set, with a match in title, description or
    location if a pattern is set. *)
Definition list_filter (from : Z) (upto : option Z) (cat : option string)
    (pattern : option (string → bool)) (doc : Event) : bool :=
  (from <=? dateTime doc)%Z
  && (if upto is Some t then (dateTime doc <=? t)%Z else true)
  && (if cat is Some c then String.eqb (category doc) c else true)
  && (if pattern is Some test
      then test (title doc) || test (description doc) || test (location doc)
      else true).

(** [GET /]; [now] is [new Date()]. A date or a pattern the store cannot
    cast makes the query raise, and the handler answers 500. *)
Definition list_events (now : Z) (q : Query) (users : gmap string User)
    (db : Store) : Read (list Listed) :=
  let cat :=
    match given (q_category q) with
    | Some c => if String.eqb c "All" then None else Some c
    | None => None
    end in
  let gte :=
    match given (q_startDate q) with
    | Some s => parseDate s
    | None => Some now
    end in
  let lte :=
    match given (q_endDate q) with
    | Some s => Some <$> parseDate s
    | None => Some None
    end in
  let search :=
    match given (q_search q) with
    | Some s => Some <$> regex s
    | None => Some None
    end in
  match gte, lte, search with
  | Some from, Some upto, Some pattern =>
      Found ((λ kv, listed users kv.1 kv.2)
               <$> find db (list_filter from upto cat pattern))
  | _, _, _ => NotSent 500 msg_server
  end.

End Listing.

(** ** The event card of the client *)

(** [a || b] on two counts. *)
Definition or_count (a b : nat) : nat := if decide (a = 0%nat) then b else a.

(** [user] is the id of the signed-in user, [None] when nobody is signed in;
    the card shows an event as a reading route sent it. *)
Definition isCreator (user : option ObjectId) (event : Listed) : bool :=
  match user with
  | None => false
  | Some uid =>
      String.eqb (if l_createdBy event is Some c then creator_id c else "null") uid
  end.

Definition isAttending (user : option ObjectId) (event : Listed) : bool :=
  match user with
  | None => false
  | Some uid => existsb (λ a, String.eqb a uid) (attendees (l_doc event))
  end.

Definition isFull (event : Listed) : bool :=
  (capacity (l_doc event)
   <=? Z.of_nat (or_count (l_attendeeCount event)
                    (or_count (length (attendees (l_doc event))) 0)))%Z.

Definition canRSVP (user : option ObjectId) (event : Listed) : bool :=
  match user with
  | None => false
  | Some _ =>
      negb (isCreator user event) && negb (isAttending user event)
      && negb (isFull event)
  end.

(** ** POST /api/ai/generate-description *)

(** [s.includes(needle)] *)
Fixpoint includes (needle s : string) : bool :=
  String.prefix needle s
  || match s with
     | String _ rest => includes needle rest
     | EmptyString => false
     end.

(** [s.trim()] *)
Definition trim (s : string) : string :=
  String.rev (trimStart (String.rev (trimStart s))).

(** What the call to one model comes to: [fetch] or [response.json()]
    raises an error with a message; or the response is [ok] and may carry
    [candidates?.[0]?.content?.parts?.[0]?.text]; or it is not, and may
    carry [data.error], which may have a message. *)
Inductive Fetched :=
  | Threw (message : string)
  | Generated (text : option string)
  | Rejected (error : option (option string)).

(** The answers of the route. *)
Inductive AiReply :=
  | Description (description : string)
  | AiError (code : nat) (message : string).

(** [message?.includes(needle)] *)
Definition mentions (needle : string) (message : option string) : bool :=
  if message is Some m then includes needle m else false.

(** [message?.includes("quota") || message?.includes("Quota exceeded")] *)
Definition isQuota (message : option string) : bool :=
  mentions "quota" message || mentions "Quota exceeded" message.

Definition modelsToTry : list string :=
  ["gemini-flash-latest"; "gemini-2.0-flash"; "gemini-2.5-flash";
   "gemini-pro-latest"].

(** The [for] loop over the models: the response it returns, or [lastError]
    as it stands when the loop is left ([None] is a value that is not
    truthy, [Some message] an error object and its message). *)
Fixpoint tryModels (fetch : string → Fetched) (models : list string)
    (lastError : option (option string)) : AiReply + option (option string) :=
  match models with
  | [] => inr lastError
  | modelName :: rest =>
      match fetch modelName with
      | Threw message => tryModels fetch rest (Some (Some message))
      | Generated text =>
          match given text with
          | Some generatedText => inl (Description (trim generatedText))
          | None => tryModels fetch rest lastError
          end
      | Rejected error =>
          if isQuota (error ≫= id) then tryModels fetch rest error
          else inr error
      end
  end.

(** What follows the loop. *)
Definition afterModels (lastError : option (option string)) : AiReply :=
  match lastError with
  | Some message =>
      if isQuota message then
        AiError 429 "API quota exceeded for all models. Please check your Google Cloud billing or wait for quota reset."
      else if mentions "overloaded" message then
        AiError 503 "AI service is temporarily overloaded. Please try again in a moment."
      else
        AiError 500
          (default "Failed to generate description. Please check your API key and try again."
                   (given message))
  | None => AiError 500 "Failed to generate description. All models failed."
  end.

(** The handler; [apiKey] is [process.env.GEMINI_API_KEY], [fetch] the
    outcome of the call for each model with the prompt of this request. *)
Definition generate_description (apiKey : option string)
    (fetch : string → Fetched) (title : option string) : AiReply :=
  match given title with
  | None => AiError 400 "Title is required"
  | Some _ =>
      match given apiKey with
      | None =>
          AiError 500 "AI service is not configured. Please set GEMINI_API_KEY in environment variables."
      | Some _ =>
          match tryModels fetch modelsToTry None with
          | inl sent => sent
          | inr lastError => afterModels lastError
          end
      end
  end.

(** A model that makes the loop go on to the next one: its call raised, or
    it answered without a text, or it refused with a quota message. *)
Definition passes_on (outcome : Fetched) : bool :=
  match outcome with
  | Threw _ => true
  | Generated text => bool_decide (given text = None)
  | Rejected error => isQuota (error ≫= id)
  end.

(** ** The order of the conditional updates *)

(** The participants of the joins in flight, in the order in which the
    schedule runs their conditional updates. *)
Fixpoint commits (db : Store) (eventId : ObjectId) (pool : list Flight)
    (schedule : list nat) : list ObjectId :=
  match schedule with
  | [] => []
  | i :: rest =>
      match pool !! i with
      | Some f =>
          let '(db', f') := advance db eventId f in
          (if f is Arrived u then [u] else [])
            ++ commits db' eventId (<[i := f']> pool) rest
      | None => commits db eventId pool rest
      end
  end.

(** ** The event form of the client *)

(** [parseInt(s)], the radix left out: decimal, or hexadecimal after a
    prefix [0x] or [0X]. *)
Definition hexDigit (c : ascii) : option Z :=
  let n := nat_of_ascii c in
  if bool_decide (48 ≤ n ≤ 57)%nat then Some (Z.of_nat (n - 48))
  else if bool_decide (97 ≤ n ≤ 102)%nat then Some (Z.of_nat (n - 87))
  else if bool_decide (65 ≤ n ≤ 70)%nat then Some (Z.of_nat (n - 55))
  else None.

Fixpoint hexDigits (acc : option Z) (s : string) : option Z :=
  match s with
  | String c rest =>
      match hexDigit c with
      | Some d => hexDigits (Some (16 * default 0 acc + d)%Z) rest
      | None => acc
      end
  | EmptyString => acc
  end.

(** The numeral once white space and sign are off. *)
Definition unsigned (body : string) : option Z :=
  if String.prefix "0x" body || String.prefix "0X" body
  then hexDigits None (String.substring 2 (String.length body - 2) body)
  else digits None body.

Definition parseIntAuto (s : string) : option Z :=
  match trimStart s with
  | String "-" rest => Z.opp <$> unsigned rest
  | String "+" rest => unsigned rest
  | t => unsigned t
  end.

(** [formData] of the form for a new event, as typed; [f_image] is the
    file the image picker has kept. *)
Record Form := mkForm {
  f_title : string;
  f_description : string;
  f_dateTime : string;
  f_location : string;
  f_capacity : string;
  f_category : string;
  f_image : option File
}.

(** The [errors] object of [validateForm]. *)
Record Errors := mkErrors {
  e_title : option string;
  e_description : option string;
  e_dateTime : option string;
  e_location : option string;
  e_capacity : option string
}.

Section ClientForm.

(** [new Date(s)] in the browser. *)
Variable browserDate : string → option Z.

(** [validateForm]: the errors it sets; [now] is [new Date()]. A comparison
    with an invalid date or with [NaN] is false. *)
Definition validationErrors (now : Z) (formData : Form) : Errors :=
  mkErrors
    (if decide (trim (f_title formData) = "") then Some "Title is required"
     else if decide (String.length (f_title formData) < 3)%nat
          then Some "Title must be at least 3 characters"
          else None)
    (if decide (trim (f_description formData) = "")
     then Some "Description is required"
     else if decide (String.length (f_description formData) < 10)%nat
          then Some "Description must be at least 10 characters"
          else None)
    (if decide (f_dateTime formData = "") then Some "Date and time is required"
     else match browserDate (f_dateTime formData) with
          | Some selectedDate =>
              if decide (selectedDate < now)%Z
              then Some "Event date must be in the future" else None
          | None => None
          end)
    (if decide (trim (f_location formData) = "") then Some "Location is required"
     else None)
    (if decide (f_capacity formData = "") then Some "Capacity is required"
     else match parseIntAuto (f_capacity formData) with
          | Some n =>
              if decide (n < 1)%Z then Some "Capacity must be at least 1"
              else if decide (10000 < n)%Z
                   then Some "Capacity cannot exceed 10,000"
                   else None
          | None => None
          end).

(** [Object.keys(errors).length === 0] *)
Definition validateForm (now : Z) (formData : Form) : bool :=
  let errors := validationErrors now formData in
  bool_decide (e_title errors = None ∧ e_description errors = None
               ∧ e_dateTime errors = None ∧ e_location errors = None
               ∧ e_capacity errors = None).

(** The fields [handleSubmit] appends to the request. *)
Definition submitData (formData : Form) : Body :=
  mkBody (Some (trim (f_title formData)))
         (Some (trim (f_description formData)))
         (Some (f_dateTime formData))
         (Some (trim (f_location formData)))
         (Some (f_capacity formData))
         (Some (f_category formData)).

(** [handleSubmit] for a new event: the request it sends for the signed-in
    user, none when the form does not validate. *)
Definition handleSubmit (now : Z) (user newId : ObjectId) (formData : Form)
    : option Request :=
  if validateForm now formData
  then Some (Create user newId (submitData formData) (f_image formData))
  else None.

End ClientForm.

(** ** The description generator of the client *)

(** The loop of [aiAPI.generateDescription]: the description it returns, or
    the message of the error it throws. A refusal that is not for quota is
    thrown, caught by the [catch] of the same iteration, and thrown again. *)
Fixpoint clientTryModels (fetch : string → Fetched) (models : list string)
    : string + string :=
  match models with
  | [] => inr "All models failed. API quota may be exceeded."
  | modelName :: rest =>
      match fetch modelName with
      | Threw message =>
          if isQuota (Some message) then clientTryModels fetch rest
          else inr message
      | Generated text =>
          match given text with
          | Some generatedText => inl (trim generatedText)
          | None => clientTryModels fetch rest
          end
      | Rejected error =>
          if isQuota (error ≫= id) then clientTryModels fetch rest
          else inr (default "Failed to generate description"
                            (given (error ≫= id)))
      end
  end.

(** [apiKey] is [process.env.REACT_APP_GEMINI_API_KEY]. *)
Definition generateDescription (apiKey : option string)
    (fetch : string → Fetched) (title : option string) : string + string :=
  match given apiKey with
  | None =>
      inr "Gemini API key not configured. Please restart the React development server after adding REACT_APP_GEMINI_API_KEY to .env"
  | Some _ =>
      match given title with
      | None => inr "Title is required"
      | Some _ => clientTryModels fetch modelsToTry
      end
  end.

(** ** Who got in *)

(** The participants whose join was answered with success, in the order of
    the requests. *)
Definition winners (users : list ObjectId) (resps : list Response)
    : list ObjectId :=
  (filter (λ p, succeeded p.2 = true) (zip users resps)).*1.

(** ** Route parameters *)

(** [req.params.id] reaches a handler as the string of the URL, and the
    first store call of the handler casts it to an [ObjectId]. Where the
    string does not cast the call raises, and the [catch] of the handler
    answers 500; nothing has been written by then. [rsvp_at], [unrsvp],
    [get_event], [update_event] and [delete_event] above are the handlers
    from the cast on. *)

Section Routes.

(** The cast of the driver: the id a string stands for, [None] where the
    cast raises. *)
Variable castObjectId : string → option ObjectId.

Variable parseDate : string → option Z.

(** [POST /:id/rsvp] *)
Definition post_rsvp (db later : Store) (id : string) (userId : ObjectId)
    : Store * Response :=
  match castObjectId id with
  | Some eventId => rsvp_at db later eventId userId
  | None => (db, reply 500 msg_server)
  end.

(** [POST /:id/unrsvp] *)
Definition post_unrsvp (db : Store) (id : string) (userId : ObjectId)
    : Store * Response :=
  match castObjectId id with
  | Some eventId => unrsvp db eventId userId
  | None => (db, reply 500 msg_server)
  end.

(** [GET /:id] *)
Definition get_by_id (users : gmap string User) (db : Store) (id : string)
    : Read Listed :=
  match castObjectId id with
  | Some eventId => get_event users db eventId
  | None => NotSent 500 msg_server
  end.

(** [PUT /:id] *)
Definition put_by_id (db : Store) (user : ObjectId) (id : string)
    (b : Body) (file : option File) : Store * Response :=
  match castObjectId id with
  | Some eventId => update_event parseDate db user eventId b file
  | None => (db, reply 500 msg_server)
  end.

(** [DELETE /:id] *)
Definition delete_by_id (db : Store) (user : ObjectId) (id : string)
    : Store * Response :=
  match castObjectId id with
  | Some eventId => delete_event db user eventId
  | None => (db, reply 500 msg_server)
  end.

End Routes.

(** The cast used in the examples: the strings of 24 hexadecimal digits,
    read without regard to case. *)
Definition lowerHex (c : ascii) : ascii :=
  let n := nat_of_ascii c in
  if bool_decide (65 ≤ n ≤ 70)%nat then ascii_of_nat (n + 32) else c.

Definition cast24 (s : string) : option ObjectId :=
  let cs := String.list_ascii_of_string s in
  if bool_decide (length cs = 24%nat)
     && forallb (λ c, bool_decide (is_Some (hexDigit c))) cs
  then Some (String.string_of_list_ascii (lowerHex <$> cs))
  else None.

(** ** Frames *)

(** A document with its attendee list blanked: everything a join or a
    leave has no business with. *)
Definition details (ev : Event) : Event := set_attendees (λ _, []) ev.

(** The edit form with nothing filled in. *)
Definition blank : Body := mkBody None None None None None None.

(** * Properties *)

(** ** The store primitives *)

Lemma findOneAndUpdate_hit (db : Store) _id cond upd doc :
  db !! _id = Some doc → cond doc = true →
  findOneAndUpdate db _id cond upd = (<[_id := upd doc]> db, Some (upd doc)).
Proof. intros Hdoc Hcond. unfold findOneAndUpdate. by rewrite Hdoc, Hcond. Qed.

Lemma findOneAndUpdate_miss (db : Store) _id cond upd :
  (∀ doc, db !! _id = Some doc → cond doc = false) →
  findOneAndUpdate db _id cond upd = (db, None).
Proof.
  intros Hno. unfold findOneAndUpdate.
  destruct (db !! _id) as [doc|] eqn:Hdoc; [|done].
  by rewrite (Hno doc).
Qed.

Lemma rsvp_filter_true userId doc :
  rsvp_filter userId doc = true ↔
  (userId ∉ attendees doc) ∧ (Z.of_nat (length (attendees doc)) < capacity doc)%Z.
Proof.
  unfold rsvp_filter, ne_attendee, size_lt_capacity.
  rewrite andb_true_iff, !bool_decide_eq_true. done.
Qed.

Lemma addToSet_fresh x l : x ∉ l → addToSet x l = l ++ [x].
Proof. intros Hx. unfold addToSet. by rewrite decide_False. Qed.

Lemma pull_absent x l : x ∉ l → pull x l = l.
Proof.
  intros Hx. unfold pull. induction l as [|a l IH]; [done|].
  apply not_elem_of_cons in Hx as [Hne Hl].
  rewrite filter_cons_True by done. by rewrite IH.
Qed.

Lemma pull_not_elem x l : x ∉ pull x l.
Proof. unfold pull. rewrite list_elem_of_filter. by intros [Hne _]. Qed.

Lemma pull_snoc x l : x ∉ l → pull x (l ++ [x]) = l.
Proof.
  intros Hx. unfold pull. rewrite filter_app, filter_cons_False by naive_solver.
  rewrite filter_nil, app_nil_r. by apply pull_absent.
Qed.


Lemma alreadyJoined_true ex userId :
  alreadyJoined ex userId = true ↔ userId ∈ attendees ex.
Proof.
  unfold alreadyJoined. rewrite existsb_exists. split.
  - intros (a & Hin & Heq). apply String.eqb_eq in Heq as ->.
    by apply list_elem_of_In.
  - intros Hin. exists userId. split; [by apply list_elem_of_In|].
    apply String.eqb_refl.
Qed.

Lemma alreadyJoined_false ex userId :
  alreadyJoined ex userId = false ↔ userId ∉ attendees ex.
Proof.
  rewrite <- alreadyJoined_true. destruct (alreadyJoined ex userId); naive_solver.
Qed.

(** ** The join handler, case by case *)

Lemma rsvp_at_joined (db later : Store) eventId userId ev :
  db !! eventId = Some ev → userId ∉ attendees ev →
  (Z.of_nat (length (attendees ev)) < capacity ev)%Z →
  rsvp_at db later eventId userId =
    (<[eventId := set_attendees (λ l, l ++ [userId]) ev]> db,
     ok (JEventCount eventId (set_attendees (λ l, l ++ [userId]) ev)
           (S (length (attendees ev))))).
Proof.
  intros Hev Hnew Hroom. unfold rsvp_at.
  rewrite (findOneAndUpdate_hit _ _ _ _ ev Hev) by (by apply rsvp_filter_true).
  unfold withCount, attendeeCount, set_attendees; simpl.
  rewrite addToSet_fresh by done. rewrite length_app; simpl.
  by rewrite Nat.add_1_r.
Qed.

Lemma rsvp_at_rejected (db later : Store) eventId userId :
  (∀ ev, db !! eventId = Some ev →
     userId ∈ attendees ev ∨ (capacity ev ≤ Z.of_nat (length (attendees ev)))%Z) →
  rsvp_at db later eventId userId =
    (db, rsvp_diagnose (findById later eventId) userId).
Proof.
  intros Hno. unfold rsvp_at. rewrite findOneAndUpdate_miss; [done|].
  intros ev Hev. apply not_true_iff_false. rewrite rsvp_filter_true.
  destruct (Hno ev Hev); [tauto | lia].
Qed.

Lemma rsvp_diagnose_status existing userId :
  status (rsvp_diagnose existing userId) = 404
  ∨ status (rsvp_diagnose existing userId) = 400.
Proof.
  unfold rsvp_diagnose. destruct existing as [ex|]; [|by left].
  destruct (alreadyJoined ex userId); [by right|].
  destruct (capacity ex <=? Z.of_nat (attendeeCount ex))%Z; by right.
Qed.

(** The three ways a join can meet the collection. *)
Lemma rsvp_at_cases (db : Store) eventId userId :
  (∃ ev, db !! eventId = Some ev ∧ (userId ∉ attendees ev)
         ∧ (Z.of_nat (length (attendees ev)) < capacity ev)%Z)
  ∨ (∀ ev, db !! eventId = Some ev →
       userId ∈ attendees ev ∨ (capacity ev ≤ Z.of_nat (length (attendees ev)))%Z).
Proof.
  destruct (db !! eventId) as [ev|] eqn:Hev; [|right; naive_solver].
  destruct (decide (userId ∈ attendees ev)); [right; naive_solver|].
  destruct (decide (Z.of_nat (length (attendees ev)) < capacity ev)%Z).
  - left. eauto.
  - right. intros ? [= <-]. right. lia.
Qed.

Lemma succeeded_ok x : succeeded (ok x) = true.
Proof. done. Qed.

Lemma rsvp_diagnose_failed existing userId :
  succeeded (rsvp_diagnose existing userId) = false.
Proof.
  unfold succeeded. apply bool_decide_eq_false.
  destruct (rsvp_diagnose_status existing userId) as [-> | ->]; lia.
Qed.

Lemma reason_response_inj a b :
  message_of (reason_response a) = message_of (reason_response b) → a = b.
Proof. destruct a, b; intros Hm; try reflexivity; vm_compute in Hm; discriminate Hm. Qed.

(** What the diagnostic read answers, branch by branch. *)
Lemma rsvp_diagnose_spec existing userId :
  rsvp_diagnose existing userId =
    reason_response
      match existing with
      | None => NotFound
      | Some ex =>
          if decide (userId ∈ attendees ex) then AlreadyJoined
          else if decide (capacity ex ≤ Z.of_nat (length (attendees ex)))%Z
               then Full else Conflict
      end.
Proof.
  unfold rsvp_diagnose. destruct existing as [ex|]; [|done].
  destruct (decide (userId ∈ attendees ex)) as [Hin|Hout].
  - apply alreadyJoined_true in Hin. by rewrite Hin.
  - apply alreadyJoined_false in Hout. rewrite Hout. unfold attendeeCount.
    destruct (decide _) as [Hfull|Hroom].
    + by rewrite (proj2 (Z.leb_le _ _) Hfull).
    + by rewrite (proj2 (Z.leb_gt _ _)) by lia.
Qed.

(** ** Join *)

Lemma rsvp_at_succeeded (db later : Store) eventId userId :
  succeeded (rsvp_at db later eventId userId).2 = true ↔
  ∃ ev, db !! eventId = Some ev ∧ (userId ∉ attendees ev)
        ∧ (Z.of_nat (length (attendees ev)) < capacity ev)%Z.
Proof.
  destruct (rsvp_at_cases db eventId userId) as [(ev & Hev & Hnew & Hroom)|Hno].
  - rewrite (rsvp_at_joined _ _ _ _ ev) by done. simpl. split; [eauto|done].
  - rewrite rsvp_at_rejected by done. simpl. rewrite rsvp_diagnose_failed.
    split; [done|]. intros (ev & Hev & Hnew & Hroom).
    destruct (Hno ev Hev); [done | lia].
Qed.

(** C1. A join succeeds exactly when the one conditional update finds the
    event, the participant not among its attendees and fewer attendees than
    places, whatever other requests do afterwards; it then appends the
    participant and answers with the updated document and its attendee
    count, and otherwise writes nothing. *)
Theorem rsvp_succeeds_iff (db later : Store) eventId userId :
  (succeeded (rsvp_at db later eventId userId).2 = true ↔
     ∃ ev, db !! eventId = Some ev ∧ (userId ∉ attendees ev)
           ∧ (Z.of_nat (length (attendees ev)) < capacity ev)%Z)
  ∧ (∀ ev, db !! eventId = Some ev → userId ∉ attendees ev →
       (Z.of_nat (length (attendees ev)) < capacity ev)%Z →
       let ev' := set_attendees (λ l, l ++ [userId]) ev in
       (rsvp_at db later eventId userId).1 = <[eventId := ev']> db
       ∧ (rsvp_at db later eventId userId).2
         = ok (JEventCount eventId ev' (S (length (attendees ev))))
       ∧ userId ∈ attendees ev')
  ∧ (succeeded (rsvp_at db later eventId userId).2 = false →
       (rsvp_at db later eventId userId).1 = db).
Proof.
  split_and!.
  - apply rsvp_at_succeeded.
  - intros ev Hev Hnew Hroom. rewrite (rsvp_at_joined _ _ _ _ ev) by done.
    simpl. split_and!; [done..|].
    apply elem_of_app. right. by apply list_elem_of_singleton.
  - destruct (rsvp_at_cases db eventId userId) as [(ev & Hev & Hnew & Hroom)|Hno].
    + rewrite (rsvp_at_joined _ _ _ _ ev) by done. simpl. done.
    + by rewrite rsvp_at_rejected.
Qed.

Lemma rsvp_succeeds_iff_witness :
  (rsvp_at (Sample.one 2 [Sample.alice]) ∅ Sample.party Sample.bob).1 !! Sample.party
  = Some (Sample.event 2 [Sample.alice; Sample.bob]).
Proof.
  destruct (rsvp_succeeds_iff (Sample.one 2 [Sample.alice]) ∅
              Sample.party Sample.bob) as (_ & Hjoin & _).
  destruct (Hjoin (Sample.event 2 [Sample.alice])) as (-> & _ & _).
  - reflexivity.
  - apply (bool_decide_unpack _). vm_compute. exact I.
  - simpl. lia.
  - apply lookup_insert_eq.
Defined.

(** C6. When the conditional update of a join returns [null], the answer is
    the response of exactly one of the four reasons, chosen from what the
    diagnostic read finds at that later time; the four messages differ, the
    answer is never a success, and nothing is written. *)
Theorem rsvp_failure_classified (db later : Store) eventId userId :
  (findOneAndUpdate db eventId (rsvp_filter userId)
     (set_attendees (addToSet userId))).2 = None →
  let resp := (rsvp_at db later eventId userId).2 in
  (exists! why, resp = reason_response why)
  ∧ (resp = reason_response NotFound ↔ later !! eventId = None)
  ∧ (resp = reason_response AlreadyJoined ↔
       ∃ ex, later !! eventId = Some ex ∧ userId ∈ attendees ex)
  ∧ (resp = reason_response Full ↔
       ∃ ex, later !! eventId = Some ex ∧ (userId ∉ attendees ex)
             ∧ (capacity ex ≤ Z.of_nat (length (attendees ex)))%Z)
  ∧ (resp = reason_response Conflict ↔
       ∃ ex, later !! eventId = Some ex ∧ (userId ∉ attendees ex)
             ∧ (Z.of_nat (length (attendees ex)) < capacity ex)%Z)
  ∧ (∀ a b, message_of (reason_response a) = message_of (reason_response b)
            → a = b)
  ∧ succeeded resp = false
  ∧ (rsvp_at db later eventId userId).1 = db.
Proof.
  intros Hnull. unfold rsvp_at in *.
  destruct (findOneAndUpdate db eventId _ _) as [db' [updated|]] eqn:Hupd;
    [discriminate Hnull|].
  assert (db' = db) as ->.
  { unfold findOneAndUpdate in Hupd. destruct (db !! eventId) as [doc|];
      [destruct (rsvp_filter userId doc)|]; congruence. }
  cbn [fst snd]. rewrite rsvp_diagnose_spec. unfold findById.
  assert (∀ a b, reason_response a = reason_response b → a = b) as Hinj.
  { intros a b Hab. apply reason_response_inj. by rewrite Hab. }
  split_and!.
  - eexists. split; [done|]. intros why' Hwhy. by apply Hinj.
  - split.
    + intros Hr%Hinj. destruct (later !! eventId) as [ex|]; [|done].
      repeat case_decide; discriminate Hr.
    + by intros ->.
  - split.
    + intros Hr%Hinj. destruct (later !! eventId) as [ex|]; [|done].
      repeat case_decide; try discriminate Hr. eauto.
    + intros (ex & -> & Hin). by rewrite decide_True.
  - split.
    + intros Hr%Hinj. destruct (later !! eventId) as [ex|]; [|done].
      repeat case_decide; try discriminate Hr. eauto.
    + intros (ex & -> & Hout & Hfull). by rewrite decide_False, decide_True.
  - split.
    + intros Hr%Hinj. destruct (later !! eventId) as [ex|]; [|done].
      repeat case_decide; try discriminate Hr. exists ex. split_and!; [done..|lia].
    + intros (ex & -> & Hout & Hroom).
      rewrite decide_False by done. by rewrite decide_False by lia.
  - apply reason_response_inj.
  - rewrite <- rsvp_diagnose_spec. apply rsvp_diagnose_failed.
  - done.
Qed.

(** A join by [bob] on a full event; by the time of the diagnostic read
    [alice] has left, so neither of the first three reasons applies. *)
Lemma rsvp_failure_classified_witness :
  (rsvp_at (Sample.one 1 [Sample.alice]) (Sample.one 1 []) Sample.party Sample.bob).2
  = reason_response Conflict.
Proof.
  apply (rsvp_failure_classified (Sample.one 1 [Sample.alice])
           (Sample.one 1 []) Sample.party Sample.bob).
  - vm_compute. reflexivity.
  - exists (Sample.event 1 []). split_and!.
    + reflexivity.
    + apply (bool_decide_unpack _). vm_compute. exact I.
    + simpl. lia.
Defined.

(** C10. The diagnostic tests existence first, membership second and
    capacity last: a member of an event is told AlreadyJoined even when the
    event is at capacity, and a non-member is told Full whenever the count
    read is at or above capacity. *)
Theorem rsvp_diagnose_priority (ex : Event) userId :
  rsvp_diagnose None userId = reason_response NotFound
  ∧ (userId ∈ attendees ex →
       rsvp_diagnose (Some ex) userId = reason_response AlreadyJoined)
  ∧ (userId ∈ attendees ex →
     (capacity ex ≤ Z.of_nat (length (attendees ex)))%Z →
       rsvp_diagnose (Some ex) userId = reason_response AlreadyJoined
       ∧ rsvp_diagnose (Some ex) userId ≠ reason_response Full)
  ∧ (userId ∉ attendees ex →
     (capacity ex ≤ Z.of_nat (length (attendees ex)))%Z →
       rsvp_diagnose (Some ex) userId = reason_response Full)
  ∧ (userId ∉ attendees ex →
     (Z.of_nat (length (attendees ex)) < capacity ex)%Z →
       rsvp_diagnose (Some ex) userId = reason_response Conflict).
Proof.
  rewrite !rsvp_diagnose_spec. split_and!.
  - done.
  - intros Hin. by rewrite decide_True.
  - intros Hin _. rewrite decide_True by done. split; [done|].
    intros Heq. by apply (f_equal message_of), reason_response_inj in Heq.
  - intros Hout Hfull. by rewrite decide_False, decide_True.
  - intros Hout Hroom. rewrite decide_False by done.
    by rewrite decide_False by lia.
Qed.

Lemma rsvp_diagnose_priority_witness :
  rsvp_diagnose (Some (Sample.event 1 [Sample.alice])) Sample.alice
  = reason_response AlreadyJoined
  ∧ rsvp_diagnose (Some (Sample.event 1 [Sample.alice])) Sample.bob
    = reason_response Full.
Proof.
  destruct (rsvp_diagnose_priority (Sample.event 1 [Sample.alice]) Sample.alice)
    as (_ & _ & Hmember & _).
  destruct (rsvp_diagnose_priority (Sample.event 1 [Sample.alice]) Sample.bob)
    as (_ & _ & _ & Hfull & _).
  split.
  - apply Hmember; [|simpl; lia].
    apply (bool_decide_unpack _). vm_compute. exact I.
  - apply Hfull; [|simpl; lia].
    apply (bool_decide_unpack _). vm_compute. exact I.
Defined.

(** ** Leave *)

Lemma unrsvp_found (db : Store) eventId userId ev :
  db !! eventId = Some ev →
  unrsvp db eventId userId =
    (<[eventId := set_attendees (pull userId) ev]> db,
     ok (withCount eventId (set_attendees (pull userId) ev))).
Proof.
  intros Hev. unfold unrsvp.
  by rewrite (findOneAndUpdate_hit _ _ _ _ ev Hev).
Qed.

Lemma unrsvp_missing (db : Store) eventId userId :
  db !! eventId = None → unrsvp db eventId userId = (db, reply 404 msg_not_found).
Proof.
  intros Hev. unfold unrsvp. rewrite findOneAndUpdate_miss; [done|].
  intros doc. by rewrite Hev.
Qed.

Lemma set_attendees_id ev : set_attendees (λ l, l) ev = ev.
Proof. by destruct ev. Qed.

Lemma set_attendees_ext f g ev :
  f (attendees ev) = g (attendees ev) → set_attendees f ev = set_attendees g ev.
Proof. intros Hfg. unfold set_attendees. by rewrite Hfg. Qed.



(** C5. A join that succeeds, followed at once by a leave of the same
    participant, gives back the attendee list the event had before. *)
Theorem join_leave_round_trip (db later : Store) eventId userId :
  succeeded (rsvp_at db later eventId userId).2 = true →
  let joined := (rsvp_at db later eventId userId).1 in
  succeeded (unrsvp joined eventId userId).2 = true
  ∧ attendees <$> (unrsvp joined eventId userId).1 !! eventId
    = attendees <$> db !! eventId
  ∧ (∀ other, attendees <$> (unrsvp joined eventId userId).1 !! other
              = attendees <$> db !! other).
Proof.
  intros Hok. apply rsvp_at_succeeded in Hok as (ev & Hev & Hnew & Hroom).
  rewrite (rsvp_at_joined _ _ _ _ ev) by done. cbn [fst snd].
  rewrite (unrsvp_found _ _ _ (set_attendees (λ l, l ++ [userId]) ev))
    by apply lookup_insert_eq.
  cbn [fst snd].
  assert (set_attendees (pull userId) (set_attendees (λ l, l ++ [userId]) ev) = ev)
    as ->.
  { destruct ev as [? ? ? ? ? ? ? ? ? people]. unfold set_attendees; simpl in *.
    by rewrite pull_snoc. }
  rewrite insert_insert_eq, insert_id by done. by rewrite Hev.
Qed.

Lemma join_leave_round_trip_witness :
  attendees <$>
    (unrsvp (rsvp (Sample.one 2 [Sample.alice]) Sample.party Sample.bob).1
            Sample.party Sample.bob).1 !! Sample.party
  = Some [Sample.alice].
Proof.
  apply (join_leave_round_trip (Sample.one 2 [Sample.alice])
           (Sample.one 2 [Sample.alice]) Sample.party Sample.bob).
  vm_compute. reflexivity.
Defined.

(** The answer of a leave from the cast on. *)
Lemma unrsvp_answer (db : Store) eventId userId :
  ((unrsvp db eventId userId).2 = reason_response NotFound ↔ db !! eventId = None)
  ∧ (succeeded (unrsvp db eventId userId).2 = true ↔ is_Some (db !! eventId))
  ∧ (∀ ev, db !! eventId = Some ev →
       let ev' := set_attendees (pull userId) ev in
       (unrsvp db eventId userId).2
         = ok (JEventCount eventId ev' (length (attendees ev')))
       ∧ (unrsvp db eventId userId).1 !! eventId = Some ev'
       ∧ (userId ∉ attendees ev → ev' = ev)).
Proof.
  destruct (db !! eventId) as [ev|] eqn:Hev.
  - rewrite (unrsvp_found _ _ _ ev) by done. cbn [fst snd]. split_and!.
    + split; [intros [=] | intros [=]].
    + split; [eauto | done].
    + intros ? [= <-]. split_and!; [done | apply lookup_insert_eq |].
      intros Hout. rewrite <- (set_attendees_id ev) at 2.
      apply set_attendees_ext. by apply pull_absent.
  - rewrite unrsvp_missing by done. cbn [fst snd]. split_and!.
    + done.
    + split; [intros [=] | by intros [? [=]]].
    + intros ? [=].
Qed.

Lemma unrsvp_not_500 (db : Store) eventId userId :
  (unrsvp db eventId userId).2 ≠ reply 500 msg_server.
Proof.
  destruct (db !! eventId) as [ev|] eqn:Hev.
  - by rewrite (unrsvp_found _ _ _ ev).
  - by rewrite unrsvp_missing.
Qed.

Section LeaveRoute.

Variable castObjectId : string → option ObjectId.

(** C7, as the code has it. A leave answers NotFound exactly when the id of
    the URL casts to an id that no event has, and 500 exactly when it does
    not cast, in which case nothing is written; it succeeds exactly when
    the id casts to that of an event, member or not, and then answers with
    the updated document and its attendee count. *)
Theorem post_unrsvp_not_found_iff (db : Store) id userId :
  ((post_unrsvp castObjectId db id userId).2 = reason_response NotFound ↔
     ∃ eventId, castObjectId id = Some eventId ∧ db !! eventId = None)
  ∧ ((post_unrsvp castObjectId db id userId).2 = reply 500 msg_server ↔
       castObjectId id = None)
  ∧ (castObjectId id = None →
       (post_unrsvp castObjectId db id userId).1 = db)
  ∧ (succeeded (post_unrsvp castObjectId db id userId).2 = true ↔
       ∃ eventId, castObjectId id = Some eventId ∧ is_Some (db !! eventId))
  ∧ (∀ eventId ev, castObjectId id = Some eventId → db !! eventId = Some ev →
       let ev' := set_attendees (pull userId) ev in
       (post_unrsvp castObjectId db id userId).2
         = ok (JEventCount eventId ev' (length (attendees ev')))
       ∧ (post_unrsvp castObjectId db id userId).1 !! eventId = Some ev'
       ∧ (userId ∉ attendees ev → ev' = ev)).
Proof.
  unfold post_unrsvp. destruct (castObjectId id) as [eventId|].
  - destruct (unrsvp_answer db eventId userId) as (Hmissing & Hok & Hfound).
    split_and!.
    + rewrite Hmissing. split; [eauto|]. by intros (? & [= <-] & ?).
    + split; [|done]. intros Hserver. by apply unrsvp_not_500 in Hserver.
    + done.
    + rewrite Hok. split; [eauto|]. by intros (? & [= <-] & ?).
    + intros ? ev [= <-] Hev. by apply Hfound.
  - cbn [fst snd]. split_and!.
    + split; [intros [=] | by intros (? & [=] & _)].
    + done.
    + done.
    + split; [intros [=] | by intros (? & [=] & _)].
    + intros ? ? [=].
Qed.

End LeaveRoute.

Lemma post_unrsvp_not_found_iff_witness :
  (post_unrsvp cast24 (Sample.one 2 [Sample.alice]) Sample.picnic Sample.alice).2
  = reason_response NotFound.
Proof.
  apply (post_unrsvp_not_found_iff cast24 (Sample.one 2 [Sample.alice])
           Sample.picnic Sample.alice).
  exists Sample.picnic. split; vm_compute; reflexivity.
Defined.

(** C7, as it is worded: no event has the id [not-an-id], and the leave is
    answered 500, not NotFound. *)
Lemma leave_of_uncastable_id :
  Sample.one 2 [Sample.alice] !! "not-an-id" = None
  ∧ cast24 "not-an-id" = None
  ∧ post_unrsvp cast24 (Sample.one 2 [Sample.alice]) "not-an-id" Sample.alice
    = (Sample.one 2 [Sample.alice], reply 500 msg_server)
  ∧ (post_unrsvp cast24 (Sample.one 2 [Sample.alice]) "not-an-id"
       Sample.alice).2 ≠ reason_response NotFound.
Proof. vm_compute. split_and!; [reflexivity..|discriminate]. Qed.

(** Every route with an id in its URL answers 500 and writes nothing when
    the id does not cast; when it casts, the route is the handler from the
    cast on. *)
Lemma routes_cast (castObjectId : string → option ObjectId)
    (parseDate : string → option Z) (users : gmap string User)
    (db later : Store) id user b file :
  match castObjectId id with
  | None =>
      post_rsvp castObjectId db later id user = (db, reply 500 msg_server)
      ∧ post_unrsvp castObjectId db id user = (db, reply 500 msg_server)
      ∧ put_by_id castObjectId parseDate db user id b file
        = (db, reply 500 msg_server)
      ∧ delete_by_id castObjectId db user id = (db, reply 500 msg_server)
      ∧ get_by_id castObjectId users db id = NotSent 500 msg_server
  | Some eventId =>
      post_rsvp castObjectId db later id user = rsvp_at db later eventId user
      ∧ post_unrsvp castObjectId db id user = unrsvp db eventId user
      ∧ put_by_id castObjectId parseDate db user id b file
        = update_event parseDate db user eventId b file
      ∧ delete_by_id castObjectId db user id = delete_event db user eventId
      ∧ get_by_id castObjectId users db id = get_event users db eventId
  end.
Proof.
  unfold post_rsvp, post_unrsvp, put_by_id, delete_by_id, get_by_id.
  by destruct (castObjectId id).
Qed.

(** ** Runs of requests *)

Section Runs.

Variable parseDate : string → option Z.

Lemma create_event_effect (db : Store) user newId b file :
  effect db (Create user newId b file)
         (create_event parseDate db user newId b file).1.
Proof.
  unfold create_event.
  repeat case_match; cbn [fst]; try apply eff_none.
  apply eff_create; [done | done | cbn; lia | done].
Qed.

Lemma check_capacity_inr ev field cap :
  check_capacity ev field = inr cap →
  capacity ev = cap
  ∨ (1 ≤ cap ∧ Z.of_nat (length (attendees ev)) ≤ cap)%Z.
Proof.
  unfold check_capacity. repeat case_match; intros [= <-]; [right; lia | by left].
Qed.

Lemma update_event_effect (db : Store) user eventId b file :
  effect db (Update user eventId b file)
         (update_event parseDate db user eventId b file).1.
Proof.
  unfold update_event, findById.
  destruct (db !! eventId) as [ev|] eqn:Hev; [|apply eff_none].
  destruct (String.eqb (createdBy ev) user) eqn:Hby; [|apply eff_none].
  apply String.eqb_eq in Hby. cbn [negb].
  destruct (check_capacity ev (b_capacity b)) as [early|cap] eqn:Hcap;
    [apply eff_none|].
  apply check_capacity_inr in Hcap.
  destruct (match given (b_dateTime b) with
            | Some dt => parseDate dt
            | None => Some (dateTime ev)
            end) as [when|]; [|apply eff_none].
  cbn [fst]. apply (eff_update db user eventId b file ev); cbn; try done.
  destruct Hcap as [<- | Hcap]; [by left | by right].
Qed.

Lemma delete_event_effect (db : Store) user eventId :
  effect db (Delete user eventId) (delete_event db user eventId).1.
Proof.
  unfold delete_event, findById.
  destruct (db !! eventId) as [ev|] eqn:Hev; [|apply eff_none].
  destruct (String.eqb (createdBy ev) user) eqn:Hby; [|apply eff_none].
  apply String.eqb_eq in Hby. by apply (eff_delete db user eventId ev).
Qed.

Lemma rsvp_effect (db : Store) eventId userId :
  effect db (Join userId eventId) (rsvp db eventId userId).1.
Proof.
  unfold rsvp.
  destruct (rsvp_at_cases db eventId userId) as [(ev & Hev & Hnew & Hroom)|Hno].
  - rewrite (rsvp_at_joined _ _ _ _ ev) by done. by apply eff_join.
  - rewrite rsvp_at_rejected by done. apply eff_none.
Qed.

Lemma unrsvp_effect (db : Store) eventId userId :
  effect db (Leave userId eventId) (unrsvp db eventId userId).1.
Proof.
  destruct (db !! eventId) as [ev|] eqn:Hev.
  - rewrite (unrsvp_found _ _ _ ev) by done. by apply eff_leave.
  - rewrite unrsvp_missing by done. apply eff_none.
Qed.

Lemma handle_effect (db : Store) r : effect db r (handle parseDate db r).1.
Proof.
  destruct r; cbn [handle];
    auto using create_event_effect, update_event_effect, delete_event_effect,
               rsvp_effect, unrsvp_effect.
Qed.

(** *** The invariants are kept by every write *)

Lemma length_pull x l : (length (pull x l) ≤ length l)%nat.
Proof. apply length_filter. Qed.

Lemma effect_no_duplicates (db db' : Store) r :
  effect db r db' → every no_duplicates db → every no_duplicates db'.
Proof.
  unfold every, no_duplicates.
  intros Heff Hdb. destruct Heff as [ | ????? Hnew Hnone | ?????? Hev ? Hsame
                                     | | ??? Hev Hout | ??? Hev ]; try done.
  - apply map_Forall_insert_2; [|done]. rewrite Hnone. apply NoDup_nil_2.
  - apply map_Forall_insert_2; [|done]. rewrite Hsame.
    by apply (map_Forall_lookup_1 _ _ _ _ Hdb Hev).
  - by apply map_Forall_delete.
  - apply map_Forall_insert_2; [|done]. cbn.
    apply NoDup_app. split_and!.
    + by apply (map_Forall_lookup_1 _ _ _ _ Hdb Hev).
    + intros x Hx ->%list_elem_of_singleton. done.
    + apply NoDup_singleton.
  - apply map_Forall_insert_2; [|done]. cbn. apply NoDup_filter.
    by apply (map_Forall_lookup_1 _ _ _ _ Hdb Hev).
Qed.

Lemma effect_within_capacity (db db' : Store) r :
  effect db r db' → every within_capacity db → every within_capacity db'.
Proof.
  unfold every, within_capacity.
  intros Heff Hdb. destruct Heff as [ | ????? Hnew Hnone Hpos | ?????? Hev ? Hsame ? Hcap
                                     | | ??? Hev Hout Hroom | ??? Hev ]; try done.
  - apply map_Forall_insert_2; [|done]. rewrite Hnone. cbn. lia.
  - apply map_Forall_insert_2; [|done]. rewrite Hsame.
    pose proof (map_Forall_lookup_1 _ _ _ _ Hdb Hev) as Hok. cbn in Hok. lia.
  - by apply map_Forall_delete.
  - apply map_Forall_insert_2; [|done]. cbn. rewrite length_app. cbn. lia.
  - apply map_Forall_insert_2; [|done]. cbn.
    pose proof (map_Forall_lookup_1 _ _ _ _ Hdb Hev) as Hok. cbn in Hok.
    pose proof (length_pull user (attendees ev)). lia.
Qed.

Lemma effect_positive_capacity (db db' : Store) r :
  effect db r db' → every positive_capacity db → every positive_capacity db'.
Proof.
  unfold every, positive_capacity.
  intros Heff Hdb. destruct Heff as [ | ????? Hnew Hnone Hpos | ?????? Hev ? Hsame ? Hcap
                                     | | ??? Hev Hout Hroom | ??? Hev ]; try done.
  - by apply map_Forall_insert_2.
  - apply map_Forall_insert_2; [|done].
    pose proof (map_Forall_lookup_1 _ _ _ _ Hdb Hev) as Hok. cbn in Hok. lia.
  - by apply map_Forall_delete.
  - apply map_Forall_insert_2; [|done]. cbn.
    by apply (map_Forall_lookup_1 _ _ _ _ Hdb Hev).
  - apply map_Forall_insert_2; [|done]. cbn.
    by apply (map_Forall_lookup_1 _ _ _ _ Hdb Hev).
Qed.

Lemma serve_cons (db : Store) r rs :
  serve parseDate db (r :: rs) =
    ((serve parseDate (handle parseDate db r).1 rs).1,
     (handle parseDate db r).2 :: (serve parseDate (handle parseDate db r).1 rs).2).
Proof.
  cbn [serve]. destruct (handle parseDate db r) as [db1 resp]. cbn [fst snd].
  by destruct (serve parseDate db1 rs).
Qed.

Lemma serve_app (db : Store) rs1 rs2 :
  serve parseDate db (rs1 ++ rs2) =
    ((serve parseDate (serve parseDate db rs1).1 rs2).1,
     (serve parseDate db rs1).2 ++ (serve parseDate (serve parseDate db rs1).1 rs2).2).
Proof.
  revert db. induction rs1 as [|r rs1 IH]; intros db.
  - cbn. by destruct (serve parseDate db rs2).
  - rewrite <- app_comm_cons, !serve_cons, IH. done.
Qed.

Lemma serve_length (db : Store) rs : length (serve parseDate db rs).2 = length rs.
Proof.
  revert db. induction rs as [|r rs IH]; intros db; [done|].
  rewrite serve_cons. cbn. by rewrite IH.
Qed.

(** An invariant kept by every write holds after any run. *)
Lemma serve_invariant (P : Event → Prop) :
  (∀ db db' r, effect db r db' → every P db → every P db') →
  ∀ rs db, every P db → every P (serve parseDate db rs).1.
Proof.
  intros Hstep rs. induction rs as [|r rs IH]; intros db Hdb; [done|].
  rewrite serve_cons. cbn [fst]. apply IH.
  by apply (Hstep db _ r (handle_effect db r)).
Qed.

End Runs.

(** ** Counting the joins that succeed *)

Lemma distinct_nonmembers_nil members : distinct_nonmembers [] members = 0.
Proof.
  unfold distinct_nonmembers. apply size_empty_iff. intros x.
  rewrite elem_of_difference, list_to_set_nil, elem_of_empty. tauto.
Qed.

Lemma distinct_nonmembers_drop_member us1 u us2 members :
  u ∈ members →
  distinct_nonmembers (us1 ++ u :: us2) members
  = distinct_nonmembers (us1 ++ us2) members.
Proof.
  intros Hin. unfold distinct_nonmembers. f_equal.
  apply set_eq. intros x. rewrite !elem_of_difference, !elem_of_list_to_set.
  rewrite !elem_of_app, elem_of_cons.
  split; [intros [[Hx | [-> | Hx]] Hout]; tauto | tauto].
Qed.

Lemma distinct_nonmembers_drop_new us1 u us2 members :
  u ∉ members →
  distinct_nonmembers (us1 ++ u :: us2) members
  = S (distinct_nonmembers (us1 ++ us2) (members ++ [u])).
Proof.
  intros Hout. unfold distinct_nonmembers.
  assert ((list_to_set (us1 ++ u :: us2) : gset string) ∖ list_to_set members
          = {[u]} ∪ (list_to_set (us1 ++ us2) ∖ list_to_set (members ++ [u])))
    as ->.
  { apply set_eq. intros x.
    rewrite elem_of_union, !elem_of_difference, elem_of_singleton.
    rewrite !elem_of_list_to_set, !elem_of_app, elem_of_cons.
    rewrite list_elem_of_singleton.
    destruct (decide (x = u)) as [-> | Hne]; tauto. }
  rewrite size_union, size_singleton; [done|].
  intros x. rewrite elem_of_singleton, elem_of_difference, !elem_of_list_to_set.
  rewrite (elem_of_app members), list_elem_of_singleton. intros -> [_ Hx]. tauto.
Qed.

Lemma distinct_nonmembers_member u us members :
  u ∈ members →
  distinct_nonmembers (u :: us) members = distinct_nonmembers us members.
Proof. apply (distinct_nonmembers_drop_member []). Qed.

Lemma distinct_nonmembers_new u us members :
  u ∉ members →
  distinct_nonmembers (u :: us) members
  = S (distinct_nonmembers us (members ++ [u])).
Proof. apply (distinct_nonmembers_drop_new []). Qed.

Lemma successes_app resps1 resps2 :
  successes (resps1 ++ resps2) = (successes resps1 + successes resps2)%nat.
Proof. unfold successes. by rewrite filter_app, length_app. Qed.

Lemma successes_cons resp resps :
  successes (resp :: resps)
  = ((if succeeded resp then 1 else 0) + successes resps)%nat.
Proof.
  unfold successes. destruct (succeeded resp) eqn:Hok.
  - by rewrite filter_cons_True.
  - rewrite filter_cons_False; [done|]. by rewrite Hok.
Qed.

(** *** Joins in flight *)

(** Run to its answer without another request in between, a join in flight
    is the handler. *)
Lemma advance_twice (db : Store) eventId userId :
  let first := advance db eventId (Arrived userId) in
  advance first.1 eventId first.2
  = ((rsvp db eventId userId).1, Answered (rsvp db eventId userId).2).
Proof.
  unfold rsvp, rsvp_at. cbn [advance].
  destruct (findOneAndUpdate db eventId _ _) as [db' [updated|]] eqn:Hupd;
    cbn [fst snd advance]; [done|].
  assert (db' = db) as ->; [|done].
  unfold findOneAndUpdate in Hupd. destruct (db !! eventId) as [doc|];
    [destruct (rsvp_filter userId doc)|]; congruence.
Qed.

Lemma waiting_app pool1 pool2 : waiting (pool1 ++ pool2) = waiting pool1 ++ waiting pool2.
Proof. apply omap_app. Qed.

Lemma answers_app pool1 pool2 : answers (pool1 ++ pool2) = answers pool1 ++ answers pool2.
Proof. apply omap_app. Qed.

Lemma waiting_arrived users : waiting (Arrived <$> users) = users.
Proof. induction users as [|u us IH]; [done|]. cbn. by f_equal. Qed.

Lemma answers_arrived users : answers (Arrived <$> users) = [].
Proof. by induction users. Qed.

Lemma waiting_answered pool : Forall (λ f, answered f = true) pool → waiting pool = [].
Proof.
  induction 1 as [|f pool Hf _ IH]; [done|]. by destruct f.
Qed.

(** One store call of one request keeps the event, its capacity, the bound
    on its attendees, and the budget. *)
Lemma advance_budget (db : Store) eventId ev pool i f :
  db !! eventId = Some ev → pool !! i = Some f →
  ∃ ev', (advance db eventId f).1 !! eventId = Some ev'
         ∧ capacity ev' = capacity ev
         ∧ (within_capacity ev → within_capacity ev')
         ∧ budget ev' (<[i := (advance db eventId f).2]> pool) = budget ev pool.
Proof.
  intros Hev Hf. apply list_elem_of_split_length in Hf as (l1 & l2 & -> & ->).
  rewrite insert_app_r_alt, Nat.sub_diag by done. cbn [insert list_insert].
  unfold budget, within_capacity.
  rewrite !waiting_app, !answers_app, !successes_app.
  destruct f as [u | u | resp]; cbn [advance].
  - change (waiting (Arrived u :: l2)) with (u :: waiting l2).
    change (answers (Arrived u :: l2)) with (answers l2).
    destruct (decide (u ∈ attendees ev)) as [Hin|Hnew];
      [|destruct (decide (Z.of_nat (length (attendees ev)) < capacity ev)%Z)
          as [Hroom|Hfull]].
    + rewrite findOneAndUpdate_miss; cycle 1.
      { intros doc Hdoc. assert (doc = ev) as -> by congruence.
        apply not_true_iff_false. rewrite rsvp_filter_true. tauto. }
      exists ev. cbn [fst snd]. split_and!; [done..|].
      change (waiting (Refused u :: l2)) with (waiting l2).
      change (answers (Refused u :: l2)) with (answers l2).
      by rewrite distinct_nonmembers_drop_member.
    + rewrite (findOneAndUpdate_hit _ _ _ _ ev Hev) by (by apply rsvp_filter_true).
      eexists. cbn [fst snd]. rewrite lookup_insert_eq. split; [done|].
      cbn [set_attendees attendees capacity]. rewrite addToSet_fresh by done.
      rewrite length_app. cbn [length]. split_and!; [done | lia |].
      match goal with
      | |- context [answers (Answered ?r :: l2)] =>
          change (answers (Answered r :: l2)) with (r :: answers l2);
          change (waiting (Answered r :: l2)) with (waiting l2)
      end.
      rewrite distinct_nonmembers_drop_new by done.
      rewrite successes_cons, succeeded_ok. lia.
    + rewrite findOneAndUpdate_miss; cycle 1.
      { intros doc Hdoc. assert (doc = ev) as -> by congruence.
        apply not_true_iff_false. rewrite rsvp_filter_true. lia. }
      exists ev. cbn [fst snd]. split_and!; [done..|].
      change (waiting (Refused u :: l2)) with (waiting l2).
      change (answers (Refused u :: l2)) with (answers l2). lia.
  - exists ev. cbn [fst snd]. split_and!; [done..|].
    match goal with
    | |- context [answers (Answered ?r :: l2)] =>
        change (answers (Answered r :: l2)) with (r :: answers l2);
        change (waiting (Answered r :: l2)) with (waiting l2)
    end.
    change (waiting (Refused u :: l2)) with (waiting l2).
    change (answers (Refused u :: l2)) with (answers l2).
    rewrite successes_cons, rsvp_diagnose_failed. lia.
  - exists ev. done.
Qed.

Lemma interleave_budget schedule : ∀ (db : Store) eventId ev pool,
  db !! eventId = Some ev → within_capacity ev →
  ∃ ev', (interleave db eventId pool schedule).1 !! eventId = Some ev'
         ∧ capacity ev' = capacity ev
         ∧ within_capacity ev'
         ∧ budget ev' (interleave db eventId pool schedule).2 = budget ev pool.
Proof.
  induction schedule as [|i rest IH]; intros db eventId ev pool Hev Hok.
  - exists ev. done.
  - cbn [interleave]. destruct (pool !! i) as [f|] eqn:Hf; [|by apply IH].
    destruct (advance_budget db eventId ev pool i f Hev Hf)
      as (ev1 & Hev1 & Hcap1 & Hok1 & Hbudget1).
    destruct (advance db eventId f) as [db1 f1]. cbn [fst snd] in *.
    destruct (IH db1 eventId ev1 (<[i := f1]> pool) Hev1 (Hok1 Hok))
      as (ev2 & Hev2 & Hcap2 & Hok2 & Hbudget2).
    exists ev2. split_and!; [done | congruence | done | congruence].
Qed.

Section Capacity.

Variable parseDate : string → option Z.

Lemma serve_ask_cons (db : Store) eventId u us :
  serve parseDate db (ask eventId (u :: us)) =
    ((serve parseDate (rsvp db eventId u).1 (ask eventId us)).1,
     (rsvp db eventId u).2 :: (serve parseDate (rsvp db eventId u).1 (ask eventId us)).2).
Proof. unfold ask. rewrite fmap_cons. apply serve_cons. Qed.

(** The count of successful joins, with a truncated subtraction. *)
Lemma successes_ask users : ∀ (db : Store) eventId ev,
  db !! eventId = Some ev →
  successes (serve parseDate db (ask eventId users)).2
  = (distinct_nonmembers users (attendees ev)
     `min` Z.to_nat (capacity ev - Z.of_nat (length (attendees ev))))%nat.
Proof.
  induction users as [|u us IH]; intros db eventId ev Hev.
  - by rewrite distinct_nonmembers_nil.
  - rewrite serve_ask_cons. cbn [snd]. rewrite successes_cons. unfold rsvp.
    destruct (rsvp_at_cases db eventId u) as [(ev0 & Hev0 & Hnew & Hroom)|Hno].
    + assert (ev0 = ev) as -> by congruence.
      rewrite (rsvp_at_joined _ _ _ _ ev) by done. cbn [fst snd].
      rewrite succeeded_ok.
      rewrite (IH _ _ (set_attendees (λ l, l ++ [u]) ev))
        by apply lookup_insert_eq.
      rewrite distinct_nonmembers_new by done.
      cbn [set_attendees attendees capacity].
      rewrite length_app. cbn [length]. lia.
    + rewrite rsvp_at_rejected by done. cbn [fst snd].
      rewrite rsvp_diagnose_failed, (IH _ _ ev) by done.
      destruct (Hno ev Hev) as [Hin | Hfull].
      * by rewrite distinct_nonmembers_member.
      * lia.
Qed.

(** Joins keep the event, its capacity and the bound on its attendees. *)
Lemma serve_ask_event users : ∀ (db : Store) eventId ev,
  db !! eventId = Some ev → within_capacity ev →
  ∃ ev', (serve parseDate db (ask eventId users)).1 !! eventId = Some ev'
         ∧ capacity ev' = capacity ev ∧ within_capacity ev'.
Proof.
  unfold within_capacity.
  induction users as [|u us IH]; intros db eventId ev Hev Hok.
  - exists ev. done.
  - rewrite serve_ask_cons. cbn [fst]. unfold rsvp.
    destruct (rsvp_at_cases db eventId u) as [(ev0 & Hev0 & Hnew & Hroom)|Hno].
    + assert (ev0 = ev) as -> by congruence.
      rewrite (rsvp_at_joined _ _ _ _ ev) by done. cbn [fst].
      destruct (IH (<[eventId := set_attendees (λ l, l ++ [u]) ev]> db) eventId
                  (set_attendees (λ l, l ++ [u]) ev)) as (ev' & ? & ? & ?).
      * apply lookup_insert_eq.
      * cbn. rewrite length_app. cbn. lia.
      * exists ev'. done.
    + rewrite rsvp_at_rejected by done. cbn [fst]. by apply IH.
Qed.

(** C2. On an event of capacity C holding M ≤ C attendees, of any sequence
    of join requests exactly min(distinct non-member requesters, C - M)
    succeed, and after every request of the sequence the event still has
    capacity C and at most C attendees. The same holds when the store calls
    of the requests are interleaved in any order: the event stays within
    its capacity at every step, and once all requests are answered exactly
    that many have succeeded. Moreover, in any collection where every event
    is within its capacity, every run of requests of any kind leaves every
    event within its capacity, step after step. *)
Theorem capacity_invariant (db : Store) eventId ev users :
  db !! eventId = Some ev →
  (Z.of_nat (length (attendees ev)) ≤ capacity ev)%Z →
  Z.of_nat (successes (serve parseDate db (ask eventId users)).2)
  = (Z.of_nat (distinct_nonmembers users (attendees ev))
     `min` (capacity ev - Z.of_nat (length (attendees ev))))%Z
  ∧ (∀ k, ∃ ev',
       (serve parseDate db (ask eventId (take k users))).1 !! eventId = Some ev'
       ∧ capacity ev' = capacity ev
       ∧ (Z.of_nat (length (attendees ev')) ≤ capacity ev)%Z)
  ∧ (∀ schedule,
       let run := interleave db eventId (Arrived <$> users) schedule in
       (∃ ev', run.1 !! eventId = Some ev'
               ∧ capacity ev' = capacity ev
               ∧ (Z.of_nat (length (attendees ev')) ≤ capacity ev)%Z)
       ∧ (Forall (λ f, answered f = true) run.2 →
            Z.of_nat (successes (answers run.2))
            = (Z.of_nat (distinct_nonmembers users (attendees ev))
               `min` (capacity ev - Z.of_nat (length (attendees ev))))%Z))
  ∧ (every within_capacity db →
     ∀ rs k, every within_capacity (serve parseDate db (take k rs)).1).
Proof.
  intros Hev Hok. split_and!.
  - rewrite (successes_ask users db eventId ev Hev). lia.
  - intros k.
    destruct (serve_ask_event (take k users) db eventId ev Hev Hok)
      as (ev' & Hev' & Hcap & Hok').
    exists ev'. unfold within_capacity in Hok'. split_and!; [done | done | lia].
  - intros schedule run. subst run.
    destruct (interleave_budget schedule db eventId ev (Arrived <$> users) Hev Hok)
      as (ev' & Hev' & Hcap & Hok' & Hbudget).
    unfold within_capacity in Hok'. split.
    + exists ev'. split_and!; [done | done | lia].
    + intros Hdone. unfold budget in Hbudget.
      rewrite (waiting_answered _ Hdone), distinct_nonmembers_nil in Hbudget.
      rewrite answers_arrived, waiting_arrived in Hbudget.
      change (successes []) with 0%nat in Hbudget. lia.
  - intros Hdb rs k. apply serve_invariant; [|done].
    apply effect_within_capacity.
Qed.

End Capacity.

(** Five joins, one of them repeated and one by a member, on an event with
    one attendee and three places: two succeed. *)
Lemma capacity_invariant_witness :
  successes
    (serve Sample.epoch (Sample.one 3 [Sample.alice])
       (ask Sample.party
            [Sample.bob; Sample.alice; Sample.bob; Sample.carol; Sample.dave])).2
  = 2%nat.
Proof.
  apply Nat2Z.inj.
  rewrite (proj1 (capacity_invariant Sample.epoch (Sample.one 3 [Sample.alice])
                    Sample.party (Sample.event 3 [Sample.alice])
                    [Sample.bob; Sample.alice; Sample.bob; Sample.carol;
                     Sample.dave]
                    eq_refl ltac:(simpl; lia))).
  vm_compute. reflexivity.
Defined.

(** Two joins race for the last place: the second to arrive updates first,
    and the first is told the event is full. *)
Example last_place_race :
  interleave (Sample.one 1 []) Sample.party
    [Arrived Sample.alice; Arrived Sample.bob] [1; 0; 0]%nat
  = (Sample.one 1 [Sample.bob],
     [Answered (reason_response Full);
      Answered (ok (JEventCount Sample.party (Sample.event 1 [Sample.bob]) 1))]).
Proof. vm_compute. reflexivity. Qed.

(** ** Membership *)

Lemma effect_member (db db' : Store) r e u :
  effect db r db' → r ≠ Leave u e → is_Some (db' !! e) →
  member db e u → member db' e u.
Proof.
  unfold member.
  intros Heff Hkeep Hstays (ev & Hev & Hin).
  destruct Heff as [ | ? newId ??? Hnew | ? eventId ??? ev' Hev' ? Hsame
                   | ? eventId ? | ? eventId ev' Hev' | user eventId ev' Hev' ].
  - eauto.
  - exists ev. split; [|done]. rewrite lookup_insert_ne; [done|congruence].
  - destruct (decide (eventId = e)) as [-> | Hne].
    + exists ev'. rewrite lookup_insert_eq. split; [done|]. rewrite Hsame.
      congruence.
    + exists ev. by rewrite lookup_insert_ne.
  - destruct (decide (eventId = e)) as [-> | Hne].
    + rewrite lookup_delete_eq in Hstays. by destruct Hstays.
    + exists ev. by rewrite lookup_delete_ne.
  - destruct (decide (eventId = e)) as [-> | Hne].
    + eexists. rewrite lookup_insert_eq. split; [done|]. cbn.
      apply elem_of_app. left. congruence.
    + exists ev. by rewrite lookup_insert_ne.
  - destruct (decide (eventId = e)) as [-> | Hne].
    + eexists. rewrite lookup_insert_eq. split; [done|]. cbn.
      apply list_elem_of_filter. split; [|congruence].
      intros ->. by apply Hkeep.
    + exists ev. by rewrite lookup_insert_ne.
Qed.

Lemma rsvp_member (db : Store) e u :
  member db e u → rsvp db e u = (db, reason_response AlreadyJoined).
Proof.
  intros (ev & Hev & Hin). unfold rsvp. rewrite rsvp_at_rejected.
  - unfold findById. rewrite Hev, rsvp_diagnose_spec. by rewrite decide_True.
  - intros ev0 Hev0. left. congruence.
Qed.

Lemma rsvp_succeeded_member (db : Store) e u :
  succeeded (rsvp db e u).2 = true → member (rsvp db e u).1 e u.
Proof.
  unfold rsvp. intros (ev & Hev & Hnew & Hroom)%rsvp_at_succeeded.
  rewrite (rsvp_at_joined _ _ _ _ ev) by done. cbn [fst].
  eexists. rewrite lookup_insert_eq. split; [done|]. cbn.
  apply elem_of_app. right. by apply list_elem_of_singleton.
Qed.

Section Membership.

Variable parseDate : string → option Z.

Lemma serve_member rs : ∀ (db : Store) e u,
  Forall (λ r, r ≠ Leave u e) rs →
  (∀ k, is_Some ((serve parseDate db (take k rs)).1 !! e)) →
  member db e u →
  member (serve parseDate db rs).1 e u.
Proof.
  induction rs as [|r rs IH]; intros db e u Hrs Hstays Hin; [done|].
  apply Forall_cons in Hrs as [Hr Hrs]. rewrite serve_cons. cbn [fst].
  apply IH; [done| |].
  - intros k. specialize (Hstays (S k)). cbn [take] in Hstays.
    by rewrite serve_cons in Hstays.
  - apply (effect_member db _ r e u (handle_effect _ db r)); [done| |done].
    specialize (Hstays 1%nat). cbn [take] in Hstays.
    by rewrite serve_cons in Hstays.
Qed.

(** The response to the request that follows [rs1] in a run. *)
Lemma serve_nth (db : Store) rs1 r rs2 :
  (serve parseDate db (rs1 ++ r :: rs2)).2 !! length rs1
  = Some (handle parseDate (serve parseDate db rs1).1 r).2.
Proof.
  rewrite serve_app. cbn [snd]. rewrite serve_cons. cbn [snd].
  rewrite lookup_app_r by (by rewrite serve_length).
  by rewrite serve_length, Nat.sub_diag.
Qed.

(** C3, as the code has it. In a collection without duplicate attendees no
    run of requests puts a participant twice into an attendee list; and
    once a join by a participant has succeeded, a later join by them on the
    same event is answered AlreadyJoined, provided that between the two
    they have sent no leave for that event and the event has not been
    deleted, that is, it is in the collection after each of the requests in
    between (a deletion that is refused deletes nothing). *)
Theorem no_duplicate_membership (db : Store) :
  every no_duplicates db →
  (∀ rs k id ev, (serve parseDate db (take k rs)).1 !! id = Some ev →
                 NoDup (attendees ev))
  ∧ (∀ rs1 rs2 rs3 e u first,
       let rs := rs1 ++ Join u e :: rs2 ++ Join u e :: rs3 in
       let joined := (serve parseDate db (rs1 ++ [Join u e])).1 in
       (serve parseDate db rs).2 !! length rs1 = Some first →
       succeeded first = true →
       Forall (λ r, r ≠ Leave u e) rs2 →
       (∀ k, is_Some ((serve parseDate joined (take k rs2)).1 !! e)) →
       (serve parseDate db rs).2 !! (length rs1 + 1 + length rs2)%nat
       = Some (reason_response AlreadyJoined)).
Proof.
  intros Hdb. split.
  - intros rs k id ev Hev.
    assert (every no_duplicates (serve parseDate db (take k rs)).1) as Hk.
    { apply serve_invariant; [|done]. apply effect_no_duplicates. }
    by apply (map_Forall_lookup_1 _ _ _ _ Hk Hev).
  - intros rs1 rs2 rs3 e u first rs joined Hfirst Hok Hrs2 Hstays.
    subst rs joined.
    rewrite serve_nth in Hfirst. injection Hfirst as <-. cbn [handle] in Hok.
    rewrite serve_app in Hstays. cbn [fst] in Hstays.
    rewrite serve_cons in Hstays. cbn [fst handle serve] in Hstays.
    set (db1 := (serve parseDate db rs1).1) in *.
    apply rsvp_succeeded_member in Hok.
    replace (rs1 ++ Join u e :: rs2 ++ Join u e :: rs3)
      with ((rs1 ++ Join u e :: rs2) ++ Join u e :: rs3)
      by (by rewrite <- app_assoc).
    replace (length rs1 + 1 + length rs2)%nat
      with (length (rs1 ++ Join u e :: rs2))
      by (rewrite length_app; cbn; lia).
    rewrite serve_nth. cbn [handle]. rewrite rsvp_member; [done|].
    rewrite serve_app. cbn [fst]. rewrite serve_cons. cbn [fst handle].
    fold db1. by apply serve_member.
Qed.

End Membership.

(** Between the two joins of [alice], [bob] joins, leaves and joins again,
    and asks for the deletion of the event, which is [carol]'s and stays. *)
Lemma no_duplicate_membership_witness :
  (serve Sample.epoch (Sample.one 3 [])
     ([Join Sample.bob Sample.party] ++ Join Sample.alice Sample.party
      :: [Leave Sample.bob Sample.party; Delete Sample.bob Sample.party;
          Join Sample.bob Sample.party]
      ++ Join Sample.alice Sample.party :: [])).2 !! 5%nat
  = Some (reason_response AlreadyJoined).
Proof.
  apply (proj2 (no_duplicate_membership Sample.epoch (Sample.one 3 [])
                  ltac:(apply map_Forall_singleton, NoDup_nil_2))
          [Join Sample.bob Sample.party]
          [Leave Sample.bob Sample.party; Delete Sample.bob Sample.party;
           Join Sample.bob Sample.party]
          [] Sample.party Sample.alice
          (ok (withCount Sample.party (Sample.event 3 [Sample.bob; Sample.alice])))).
  - vm_compute. reflexivity.
  - reflexivity.
  - repeat (constructor; [discriminate|]). constructor.
  - intros [|[|[|[|k]]]]; vm_compute; eauto.
Defined.

(** C3, as it is worded: a sequence of operations may hold a leave between
    two joins of a participant, and then the second join succeeds as well. *)
Lemma rejoin_after_leave_succeeds :
  let run := serve Sample.epoch (Sample.one 3 [])
               [Join Sample.alice Sample.party;
                Leave Sample.alice Sample.party;
                Join Sample.alice Sample.party] in
  succeeded <$> run.2 = [true; true; true]
  ∧ run.2 !! 2%nat ≠ Some (reason_response AlreadyJoined)
  ∧ attendees <$> run.1 !! Sample.party = Some [Sample.alice].
Proof. vm_compute. split_and!; [reflexivity | discriminate | reflexivity]. Qed.

(** ** Edits and deletions *)

Section Creator.

Variable parseDate : string → option Z.

(** C8. An edit or a deletion sent by anyone but the creator of an existing
    event is answered 403 and writes nothing; hence whenever a request
    changes the title or the capacity of an event, or removes it, that
    request is an edit or a deletion by its creator. *)
Theorem only_creator_edits (db : Store) caller eventId ev b file :
  db !! eventId = Some ev → createdBy ev ≠ caller →
  update_event parseDate db caller eventId b file
    = (db, reply 403 "Not authorized to edit this event")
  ∧ delete_event db caller eventId
    = (db, reply 403 "Not authorized to delete this event")
  ∧ (∀ r,
       title <$> (handle parseDate db r).1 !! eventId ≠ Some (title ev)
       ∨ capacity <$> (handle parseDate db r).1 !! eventId ≠ Some (capacity ev) →
       (∃ b' file', r = Update (createdBy ev) eventId b' file')
       ∨ r = Delete (createdBy ev) eventId).
Proof.
  intros Hev Hby.
  assert (String.eqb (createdBy ev) caller = false) as Hneq
    by by apply String.eqb_neq.
  split_and!.
  - unfold update_event, findById. by rewrite Hev, Hneq.
  - unfold delete_event, findById. by rewrite Hev, Hneq.
  - intros r Hchanged.
    destruct (handle_effect parseDate db r)
      as [ | ? newId ??? Hnew | user id b' file' ev0 ev' Hev0 Huser Hsame
         | user id ev0 Hev0 Huser | user id ev0 Hev0 | user id ev0 Hev0 ].
    + rewrite Hev in Hchanged. cbn in Hchanged. tauto.
    + rewrite lookup_insert_ne, Hev in Hchanged by congruence.
      cbn in Hchanged. tauto.
    + destruct (decide (id = eventId)) as [-> | Hne].
      * left. exists b', file'. congruence.
      * rewrite lookup_insert_ne, Hev in Hchanged by done.
        cbn in Hchanged. tauto.
    + destruct (decide (id = eventId)) as [-> | Hne].
      * right. congruence.
      * rewrite lookup_delete_ne, Hev in Hchanged by done.
        cbn in Hchanged. tauto.
    + destruct (decide (id = eventId)) as [-> | Hne].
      * rewrite lookup_insert_eq in Hchanged. cbn in Hchanged.
        assert (ev0 = ev) as -> by congruence. tauto.
      * rewrite lookup_insert_ne, Hev in Hchanged by done.
        cbn in Hchanged. tauto.
    + destruct (decide (id = eventId)) as [-> | Hne].
      * rewrite lookup_insert_eq in Hchanged. cbn in Hchanged.
        assert (ev0 = ev) as -> by congruence. tauto.
      * rewrite lookup_insert_ne, Hev in Hchanged by done.
        cbn in Hchanged. tauto.
Qed.

End Creator.

Lemma only_creator_edits_witness :
  update_event Sample.epoch (Sample.one 3 [Sample.alice]) Sample.bob
    Sample.party (Sample.capacity_only "50") None
  = (Sample.one 3 [Sample.alice], reply 403 "Not authorized to edit this event").
Proof.
  apply (only_creator_edits Sample.epoch (Sample.one 3 [Sample.alice]) Sample.bob
           Sample.party (Sample.event 3 [Sample.alice])).
  - reflexivity.
  - vm_compute. discriminate.
Defined.

(** ** Capacity at creation and on edit *)

Lemma check_capacity_given ev field c :
  given field = Some c →
  check_capacity ev field =
    match parseInt c with
    | None => inl (reply 400 msg_capacity)
    | Some n =>
        if decide (n < 1)%Z then inl (reply 400 msg_capacity)
        else if decide (n < Z.of_nat (length (attendees ev)))%Z
             then inl (reply 400 msg_capacity_low)
             else inr n
    end.
Proof.
  intros Hc. unfold check_capacity. rewrite Hc.
  destruct (parseInt c) as [n|]; [|done].
  destruct (decide (n < 1)%Z) as [Hlow|Hpos].
  - by rewrite (proj2 (Z.ltb_lt _ _) Hlow).
  - rewrite (proj2 (Z.ltb_ge _ _)) by lia.
    destruct (decide _) as [Hfew|Hfits].
    + by rewrite (proj2 (Z.ltb_lt _ _) Hfew).
    + by rewrite (proj2 (Z.ltb_ge _ _)) by lia.
Qed.

Section Bounds.

Variable parseDate : string → option Z.

(** C9. In any collection, the empty one included, and for any sender: a
    creation that is accepted had a capacity in its form and stores the
    integer that capacity parses to, which is at least 1, in an event
    without attendees; a creation whose capacity is missing, not a number
    or below 1 is answered 400 and writes nothing. An edit of a stored
    event that is accepted either carries no capacity and keeps the old
    one, or stores the integer its capacity parses to, which is at least 1
    and at least the attendee count; an edit by the creator whose capacity
    is not a number, below 1 or below the attendee count is answered 400,
    and an edit that is not accepted writes nothing. So every event of
    every run from a collection of positive capacities, and of every run
    from the empty collection, has a capacity of at least 1. *)
Theorem capacity_bounds (db : Store) user newId b file :
  let made := create_event parseDate db user newId b file in
  let edited := λ eventId, update_event parseDate db user eventId b file in
  (status made.2 = 201 →
     ∃ c n new, given (b_capacity b) = Some c ∧ parseInt c = Some n ∧ (1 ≤ n)%Z
                ∧ made.1 !! newId = Some new ∧ capacity new = n
                ∧ attendees new = [])
  ∧ ((∀ c n, given (b_capacity b) = Some c → parseInt c = Some n → (n < 1)%Z) →
       status made.2 = 400 ∧ made.1 = db)
  ∧ (∀ eventId ev, db !! eventId = Some ev → status (edited eventId).2 = 200 →
       createdBy ev = user
       ∧ ∃ n, capacity <$> (edited eventId).1 !! eventId = Some n
              ∧ (given (b_capacity b) = None ∧ n = capacity ev
                 ∨ ∃ c, given (b_capacity b) = Some c ∧ parseInt c = Some n
                        ∧ (1 ≤ n)%Z
                        ∧ (Z.of_nat (length (attendees ev)) ≤ n)%Z))
  ∧ (∀ eventId ev c, db !! eventId = Some ev → createdBy ev = user →
       given (b_capacity b) = Some c →
       (∀ n, parseInt c = Some n →
             (n < 1)%Z ∨ (n < Z.of_nat (length (attendees ev)))%Z) →
       status (edited eventId).2 = 400 ∧ (edited eventId).1 = db)
  ∧ (∀ eventId, status (edited eventId).2 ≠ 200 → (edited eventId).1 = db)
  ∧ (every positive_capacity db →
     ∀ rs, every positive_capacity (serve parseDate db rs).1)
  ∧ (∀ rs, every positive_capacity (serve parseDate ∅ rs).1).
Proof.
  intros made edited. subst made edited. cbn beta. split_and!.
  - unfold create_event.
    destruct (given (b_title b)), (given (b_description b)),
      (given (b_dateTime b)), (given (b_location b)),
      (given (b_capacity b)) as [c|]; try discriminate.
    destruct (parseInt c) as [n|] eqn:Hparse; [|discriminate].
    destruct (n <? 1)%Z eqn:Hn; [discriminate|]. apply Z.ltb_ge in Hn.
    destruct (parseDate _); [|discriminate].
    destruct (db !! newId) eqn:Hnew; [discriminate|]. cbn [fst snd]. intros _.
    eexists c, n, _.
    split_and!; [done | done | done | apply lookup_insert_eq | done..].
  - intros Hbad. unfold create_event.
    destruct (given (b_title b)), (given (b_description b)),
      (given (b_dateTime b)), (given (b_location b)),
      (given (b_capacity b)) as [c|]; try done.
    destruct (parseInt c) as [n|] eqn:Hparse; [|done].
    by rewrite (proj2 (Z.ltb_lt _ _) (Hbad c n eq_refl Hparse)).
  - intros eventId ev Hev. unfold update_event, findById. rewrite Hev.
    destruct (String.eqb (createdBy ev) user) eqn:Hby; cbn [negb];
      [|discriminate].
    apply String.eqb_eq in Hby.
    destruct (given (b_capacity b)) as [c|] eqn:Hc.
    + rewrite (check_capacity_given ev _ c Hc).
      destruct (parseInt c) as [n|] eqn:Hparse; [|discriminate].
      destruct (decide (n < 1)%Z); [discriminate|].
      destruct (decide (n < _)%Z); [discriminate|].
      destruct (match given (b_dateTime b) with
                | Some dt => parseDate dt
                | None => Some (dateTime ev)
                end); [|discriminate].
      cbn [fst snd]. intros _. split; [done|]. exists n.
      rewrite lookup_insert_eq. split; [done|]. right. exists c.
      split_and!; [done | done | lia | lia].
    + unfold check_capacity. rewrite Hc.
      destruct (match given (b_dateTime b) with
                | Some dt => parseDate dt
                | None => Some (dateTime ev)
                end); [|discriminate].
      cbn [fst snd]. intros _. split; [done|]. exists (capacity ev).
      rewrite lookup_insert_eq. split; [done|]. by left.
  - intros eventId ev c Hev Hby Hc Hbad. unfold update_event, findById.
    rewrite Hev, Hby, String.eqb_refl. cbn [negb].
    rewrite (check_capacity_given ev _ c Hc).
    destruct (parseInt c) as [n|]; [|done].
    destruct (decide (n < 1)%Z); [done|].
    destruct (decide (n < _)%Z); [done|].
    destruct (Hbad n eq_refl); lia.
  - intros eventId. unfold update_event.
    destruct (findById db eventId) as [ev|]; [|done].
    destruct (negb _); [done|].
    destruct (check_capacity _ _); [done|].
    destruct (match given (b_dateTime b) with
              | Some dt => parseDate dt
              | None => Some (dateTime ev)
              end); [|done].
    cbn [fst snd ok status]. done.
  - intros Hdb rs. apply serve_invariant; [|done].
    apply effect_positive_capacity.
  - intros rs. apply serve_invariant; [apply effect_positive_capacity|].
    apply map_Forall_empty.
Qed.

End Bounds.

(** A first event is created in an empty collection with the capacity its
    form parses to, a capacity of 0 is refused there, and the creator of an
    event with two attendees who asks for a capacity of 1 is refused. *)
Lemma capacity_bounds_witness :
  capacity <$>
    (create_event Sample.epoch ∅ Sample.carol Sample.picnic
       (Sample.form " 12 seats") None).1 !! Sample.picnic
  = Some 12%Z
  ∧ (status (create_event Sample.epoch ∅ Sample.carol Sample.picnic
               (Sample.form "0") None).2 = 400
     ∧ (create_event Sample.epoch ∅ Sample.carol Sample.picnic
          (Sample.form "0") None).1 = ∅)
  ∧ (status (update_event Sample.epoch (Sample.one 3 [Sample.alice; Sample.bob])
               Sample.carol Sample.party (Sample.form "1") None).2 = 400
     ∧ (update_event Sample.epoch (Sample.one 3 [Sample.alice; Sample.bob])
          Sample.carol Sample.party (Sample.form "1") None).1
       = Sample.one 3 [Sample.alice; Sample.bob]).
Proof.
  split; [|split].
  - destruct (capacity_bounds Sample.epoch ∅ Sample.carol Sample.picnic
                (Sample.form " 12 seats") None) as (Hmade & _).
    destruct Hmade as (c & n & new & Hc & Hn & _ & Hnew & Hcap & _);
      [reflexivity|].
    rewrite Hnew. cbn [fmap option_fmap option_map]. rewrite Hcap.
    injection Hc as <-. vm_compute in Hn. by injection Hn as <-.
  - destruct (capacity_bounds Sample.epoch ∅ Sample.carol Sample.picnic
                (Sample.form "0") None) as (_ & Hrefused & _).
    apply Hrefused. intros c n [= <-]. vm_compute. intros [= <-]. reflexivity.
  - destruct (capacity_bounds Sample.epoch
                (Sample.one 3 [Sample.alice; Sample.bob])
                Sample.carol Sample.picnic (Sample.form "1") None)
      as (_ & _ & _ & Hlow & _).
    apply (Hlow Sample.party (Sample.event 3 [Sample.alice; Sample.bob]) "1"
             eq_refl eq_refl eq_refl).
    intros n [= <-]. right. simpl. lia.
Defined.

(** ** The scenarios of the design document *)

(** Capacity 1, no attendees, two joins: the first is in, the second is
    told the event is full. *)
Example scenario_last_place :
  serve Sample.epoch (Sample.one 1 [])
    [Join Sample.alice Sample.party; Join Sample.bob Sample.party]
  = (Sample.one 1 [Sample.alice],
     [ok (JEventCount Sample.party (Sample.event 1 [Sample.alice]) 1);
      reason_response Full]).
Proof. vm_compute. reflexivity. Qed.

(** Capacity 3, [alice] attending, [alice] joins again. *)
Example scenario_already_joined :
  rsvp (Sample.one 3 [Sample.alice]) Sample.party Sample.alice
  = (Sample.one 3 [Sample.alice], reason_response AlreadyJoined).
Proof. vm_compute. reflexivity. Qed.

(** A join on an event that does not exist. *)
Example scenario_not_found :
  rsvp (Sample.one 3 [Sample.alice]) Sample.picnic Sample.bob
  = (Sample.one 3 [Sample.alice], reason_response NotFound).
Proof. vm_compute. reflexivity. Qed.

(** [parseInt] on what a capacity field may hold. *)
Example parseInt_samples :
  parseInt <$> ["25"; "  7 places"; "-3"; "+4"; "0"; "seven"; ""; "- 5"]
  = [Some 25; Some 7; Some (-3); Some 4; Some 0; None; None; None]%Z.
Proof. reflexivity. Qed.

(** * Further properties of the handlers *)

(** ** What a join and a leave leave alone *)

Lemma details_set_attendees f ev : details (set_attendees f ev) = details ev.
Proof. done. Qed.

(** X1. A join and a leave, whatever their outcome, neither add nor remove
    an event, change nothing but the attendee list of the event they name,
    and leave the attendee lists of all other events as they are. *)
Theorem rsvp_unrsvp_frame (db later : Store) eventId userId :
  (∀ _id, details <$> (rsvp_at db later eventId userId).1 !! _id
          = details <$> db !! _id)
  ∧ (∀ _id, _id ≠ eventId →
       (rsvp_at db later eventId userId).1 !! _id = db !! _id)
  ∧ (∀ _id, details <$> (unrsvp db eventId userId).1 !! _id
            = details <$> db !! _id)
  ∧ (∀ _id, _id ≠ eventId → (unrsvp db eventId userId).1 !! _id = db !! _id).
Proof.
  assert (∀ f ev _id, db !! eventId = Some ev →
            details <$> <[eventId := set_attendees f ev]> db !! _id
            = details <$> db !! _id) as Hsame.
  { intros f ev _id Hev. destruct (decide (_id = eventId)) as [-> | Hne].
    - by rewrite lookup_insert_eq, Hev.
    - by rewrite lookup_insert_ne. }
  split_and!.
  - intros _id.
    destruct (rsvp_at_cases db eventId userId) as [(ev & Hev & Hnew & Hroom)|Hno].
    + rewrite (rsvp_at_joined _ _ _ _ ev) by done. by apply Hsame.
    + by rewrite rsvp_at_rejected.
  - intros _id Hne.
    destruct (rsvp_at_cases db eventId userId) as [(ev & Hev & Hnew & Hroom)|Hno].
    + rewrite (rsvp_at_joined _ _ _ _ ev) by done. by apply lookup_insert_ne.
    + by rewrite rsvp_at_rejected.
  - intros _id. destruct (db !! eventId) as [ev|] eqn:Hev.
    + rewrite (unrsvp_found _ _ _ ev) by done. by apply Hsame.
    + by rewrite unrsvp_missing.
  - intros _id Hne. destruct (db !! eventId) as [ev|] eqn:Hev.
    + rewrite (unrsvp_found _ _ _ ev) by done. by apply lookup_insert_ne.
    + by rewrite unrsvp_missing.
Qed.

(** The answers of a join served alone, from the cast on. *)
Lemma rsvp_alone_cases (db : Store) eventId userId :
  (rsvp db eventId userId).2 ≠ reason_response Conflict
  ∧ ((rsvp db eventId userId).2 = reason_response NotFound ↔
       db !! eventId = None)
  ∧ ((rsvp db eventId userId).2 = reason_response AlreadyJoined ↔
       member db eventId userId)
  ∧ ((rsvp db eventId userId).2 = reason_response Full ↔
       ∃ ev, db !! eventId = Some ev ∧ (userId ∉ attendees ev)
             ∧ (capacity ev ≤ Z.of_nat (length (attendees ev)))%Z).
Proof.
  assert (∀ a b, reason_response a = reason_response b → a = b) as Hinj.
  { intros a b Hab. apply reason_response_inj. by rewrite Hab. }
  unfold rsvp, member.
  destruct (rsvp_at_cases db eventId userId) as [(ev & Hev & Hnew & Hroom)|Hno].
  - rewrite (rsvp_at_joined _ _ _ _ ev) by done. cbn [snd]. rewrite Hev.
    split_and!; [done | done | |].
    + split; [done|]. intros (ev0 & [= <-] & Hin). done.
    + split; [done|]. intros (ev0 & [= <-] & _ & Hfull). lia.
  - rewrite rsvp_at_rejected by done. cbn [snd]. unfold findById.
    rewrite rsvp_diagnose_spec.
    destruct (db !! eventId) as [ev|] eqn:Hev.
    + destruct (Hno ev eq_refl) as [Hin | Hfull].
      * rewrite decide_True by done. split_and!; [done | done | |].
        -- split; [eauto|done].
        -- split; [intros [=]%Hinj|]. intros (ev0 & [= <-] & Hout & _). done.
      * destruct (decide (userId ∈ attendees ev)) as [Hin|Hout].
        -- split_and!; [done | done | |].
           ++ split; [eauto|done].
           ++ split; [intros [=]%Hinj|]. intros (ev0 & [= <-] & Hout & _). done.
        -- rewrite decide_True by done. split_and!; [done | done | |].
           ++ split; [intros [=]%Hinj|]. intros (ev0 & [= <-] & Hin). done.
           ++ split; [eauto|done].
    + split_and!; [done | done | |].
      * split; [intros [=]%Hinj | by intros (? & [=] & _)].
      * split; [intros [=]%Hinj | by intros (? & [=] & _)].
Qed.

Lemma rsvp_at_not_500 (db later : Store) eventId userId :
  (rsvp_at db later eventId userId).2 ≠ reply 500 msg_server.
Proof.
  destruct (rsvp_at_cases db eventId userId) as [(ev & Hev & Hnew & Hroom)|Hno].
  - by rewrite (rsvp_at_joined _ _ _ _ ev).
  - rewrite rsvp_at_rejected by done. cbn [snd]. intros Hserver.
    destruct (rsvp_diagnose_status (findById later eventId) userId) as [Hs|Hs];
      rewrite Hserver in Hs; discriminate Hs.
Qed.

Section JoinRoute.

Variable castObjectId : string → option ObjectId.

(** X2. Served without another request in between, a join is never
    answered with the retry message. It is answered 500 exactly when the id
    of the URL does not cast, NotFound exactly when it casts to an id that
    no event has, AlreadyJoined exactly when the participant is an attendee
    of the event, Full exactly when a non-attendee meets as many attendees
    as places, and it succeeds exactly in the case that is left: a
    non-attendee and fewer attendees than places. It then stores and
    answers the event with the participant appended; every other answer
    writes nothing. *)
Theorem post_rsvp_alone_is_exact (db : Store) id userId :
  let served := post_rsvp castObjectId db db id userId in
  served.2 ≠ reason_response Conflict
  ∧ (served.2 = reply 500 msg_server ↔ castObjectId id = None)
  ∧ (served.2 = reason_response NotFound ↔
       ∃ eventId, castObjectId id = Some eventId ∧ db !! eventId = None)
  ∧ (served.2 = reason_response AlreadyJoined ↔
       ∃ eventId, castObjectId id = Some eventId ∧ member db eventId userId)
  ∧ (served.2 = reason_response Full ↔
       ∃ eventId ev, castObjectId id = Some eventId ∧ db !! eventId = Some ev
                     ∧ (userId ∉ attendees ev)
                     ∧ (capacity ev ≤ Z.of_nat (length (attendees ev)))%Z)
  ∧ (succeeded served.2 = true ↔
       ∃ eventId ev, castObjectId id = Some eventId ∧ db !! eventId = Some ev
                     ∧ (userId ∉ attendees ev)
                     ∧ (Z.of_nat (length (attendees ev)) < capacity ev)%Z)
  ∧ (served.2 = reply 500 msg_server ∨ served.2 = reason_response NotFound
     ∨ served.2 = reason_response AlreadyJoined
     ∨ served.2 = reason_response Full ∨ succeeded served.2 = true)
  ∧ (∀ eventId ev, castObjectId id = Some eventId → db !! eventId = Some ev →
       userId ∉ attendees ev →
       (Z.of_nat (length (attendees ev)) < capacity ev)%Z →
       let ev' := set_attendees (λ l, l ++ [userId]) ev in
       served = (<[eventId := ev']> db,
                 ok (JEventCount eventId ev' (S (length (attendees ev))))))
  ∧ (succeeded served.2 = false → served.1 = db).
Proof.
  intros served. subst served. unfold post_rsvp.
  destruct (castObjectId id) as [eventId|].
  - fold (rsvp db eventId userId).
    destruct (rsvp_alone_cases db eventId userId)
      as (Hretry & Hmissing & Hmember & Hfull).
    pose proof (rsvp_at_succeeded db db eventId userId) as Hok.
    fold (rsvp db eventId userId) in Hok.
    split_and!.
    + done.
    + split; [|done]. intros Hserver. by apply rsvp_at_not_500 in Hserver.
    + rewrite Hmissing. split; [eauto|]. by intros (? & [= <-] & ?).
    + rewrite Hmember. split; [eauto|]. by intros (? & [= <-] & ?).
    + rewrite Hfull. split.
      * intros (ev & ?). exists eventId, ev. eauto.
      * intros (? & ev & [= <-] & ?). eauto.
    + rewrite Hok. split.
      * intros (ev & ?). exists eventId, ev. eauto.
      * intros (? & ev & [= <-] & ?). eauto.
    + destruct (db !! eventId) as [ev|] eqn:Hev.
      * destruct (decide (userId ∈ attendees ev)) as [Hin|Hout].
        -- right; right; left. apply Hmember. by exists ev.
        -- destruct (decide (Z.of_nat (length (attendees ev)) < capacity ev)%Z).
           ++ right; right; right; right. apply Hok. by exists ev.
           ++ right; right; right; left. apply Hfull. exists ev.
              split_and!; [done | done | lia].
      * right; left. by apply Hmissing.
    + intros ? ev [= <-] Hev Hout Hroom. by apply rsvp_at_joined.
    + intros Hfailed.
      destruct (rsvp_at_cases db eventId userId)
        as [(ev & Hev & Hnew & Hroom)|Hno].
      * assert (succeeded (rsvp db eventId userId).2 = true) as Hyes
          by (apply Hok; eauto).
        congruence.
      * unfold rsvp. by rewrite rsvp_at_rejected.
  - cbn [fst snd]. split_and!.
    + done.
    + done.
    + split; [intros [=] | by intros (? & [=] & _)].
    + split; [intros [=] | by intros (? & [=] & _)].
    + split; [intros [=] | by intros (? & ? & [=] & _)].
    + split; [intros [=] | by intros (? & ? & [=] & _)].
    + by left.
    + intros ? ? [=].
    + done.
Qed.

End JoinRoute.

(** A join of an id that is no ObjectId is answered 500, and the same join
    of the id in capitals is served as that of the event. *)
Example post_rsvp_uncastable_id :
  post_rsvp cast24 (Sample.one 2 []) (Sample.one 2 []) "not-an-id" Sample.bob
  = (Sample.one 2 [], reply 500 msg_server)
  ∧ succeeded
      (post_rsvp cast24 (Sample.one 2 []) (Sample.one 2 [])
         "64E000000000000000000001" Sample.bob).2 = true.
Proof. vm_compute. done. Qed.

(** X3. On an event that is within its capacity, a leave by an attendee
    makes room: a join that follows at once, by them or by anyone who is
    not an attendee, succeeds. *)
Theorem leave_makes_room (db : Store) eventId ev leaver joiner :
  db !! eventId = Some ev → within_capacity ev →
  leaver ∈ attendees ev →
  joiner = leaver ∨ joiner ∉ attendees ev →
  succeeded (rsvp (unrsvp db eventId leaver).1 eventId joiner).2 = true
  ∧ member (rsvp (unrsvp db eventId leaver).1 eventId joiner).1 eventId joiner.
Proof.
  intros Hev Hok Hin Hjoiner. unfold within_capacity in Hok.
  rewrite (unrsvp_found _ _ _ ev) by done. cbn [fst].
  assert (succeeded (rsvp (<[eventId := set_attendees (pull leaver) ev]> db)
                       eventId joiner).2 = true) as Hjoin.
  { apply rsvp_at_succeeded. eexists. rewrite lookup_insert_eq.
    split; [done|]. cbn [set_attendees attendees capacity]. split.
    - destruct Hjoiner as [-> | Hout]; [apply pull_not_elem|].
      unfold pull. rewrite list_elem_of_filter. tauto.
    - assert (length (pull leaver (attendees ev)) < length (attendees ev))%nat;
        [|lia].
      unfold pull. apply list_elem_of_split in Hin as (l1 & l2 & ->).
      rewrite filter_app, filter_cons_False by tauto.
      rewrite !length_app. cbn [length].
      pose proof (length_filter (λ a, a ≠ leaver) l1).
      pose proof (length_filter (λ a, a ≠ leaver) l2). lia. }
  split; [done|]. by apply rsvp_succeeded_member.
Qed.

Lemma leave_makes_room_witness :
  succeeded
    (rsvp (unrsvp (Sample.one 1 [Sample.alice]) Sample.party Sample.alice).1
          Sample.party Sample.bob).2 = true.
Proof.
  apply (leave_makes_room (Sample.one 1 [Sample.alice]) Sample.party
           (Sample.event 1 [Sample.alice]) Sample.alice Sample.bob).
  - reflexivity.
  - unfold within_capacity. simpl. lia.
  - apply (bool_decide_unpack _). vm_compute. exact I.
  - right. apply (bool_decide_unpack _). vm_compute. exact I.
Defined.

(** X4. Leaves commute: two leaves, on the same event or on two, leave the
    same collection in either order. *)
Theorem unrsvp_commute (db : Store) e1 u1 e2 u2 :
  (unrsvp (unrsvp db e1 u1).1 e2 u2).1 = (unrsvp (unrsvp db e2 u2).1 e1 u1).1.
Proof.
  assert (∀ a b (l : list string), pull a (pull b l) = pull b (pull a l)) as Hpull.
  { intros a b l. unfold pull. induction l as [|x l IH]; [done|].
    destruct (decide (x = a)) as [Ha|Ha], (decide (x = b)) as [Hb|Hb];
      repeat (first [rewrite filter_cons_True by done
                    | rewrite filter_cons_False by tauto]);
      by rewrite ?IH. }
  destruct (db !! e1) as [ev1|] eqn:H1, (db !! e2) as [ev2|] eqn:H2.
  - rewrite (unrsvp_found db e1 u1 ev1), (unrsvp_found db e2 u2 ev2) by done.
    cbn [fst]. destruct (decide (e1 = e2)) as [-> | Hne].
    + assert (ev1 = ev2) as -> by congruence.
      rewrite !(unrsvp_found _ _ _ (set_attendees (pull _) ev2))
        by apply lookup_insert_eq.
      cbn [fst]. rewrite !insert_insert_eq. f_equal.
      unfold set_attendees; cbn -[pull]. by rewrite Hpull.
    + rewrite (unrsvp_found _ e2 u2 ev2) by by rewrite lookup_insert_ne.
      rewrite (unrsvp_found _ e1 u1 ev1) by by rewrite lookup_insert_ne.
      cbn [fst]. by apply insert_insert_ne.
  - rewrite (unrsvp_found db e1 u1 ev1), (unrsvp_missing db e2 u2) by done.
    cbn [fst]. rewrite (unrsvp_found db e1 u1 ev1) by done.
    assert (e1 ≠ e2) by congruence.
    by rewrite unrsvp_missing by by rewrite lookup_insert_ne.
  - rewrite (unrsvp_missing db e1 u1), (unrsvp_found db e2 u2 ev2) by done.
    cbn [fst]. rewrite (unrsvp_found db e2 u2 ev2) by done.
    assert (e1 ≠ e2) by congruence.
    by rewrite unrsvp_missing by by rewrite lookup_insert_ne.
  - rewrite (unrsvp_missing db e1 u1), (unrsvp_missing db e2 u2) by done.
    cbn [fst]. by rewrite (unrsvp_missing db e1 u1), (unrsvp_missing db e2 u2).
Qed.

(** ** Creating, editing and deleting *)

Section Writes.

Variable parseDate : string → option Z.

(** X5. A creation without one of title, description, date, location or
    capacity is answered 400. One that is accepted was sent under a fresh
    id and stores an event of the sender's, with the four texts and the
    capacity of the form, without attendees, and in category General
    whatever category the form names; no other event is touched. One that
    is not accepted writes nothing. *)
Theorem create_event_frame (db : Store) user newId b file :
  let made := create_event parseDate db user newId b file in
  (given (b_title b) = None ∨ given (b_description b) = None
   ∨ given (b_dateTime b) = None ∨ given (b_location b) = None
   ∨ given (b_capacity b) = None →
     made = (db, reply 400 "All fields are required"))
  ∧ (status made.2 = 201 →
       db !! newId = None
       ∧ ∃ new, made = (<[newId := new]> db, mkResponse 201 (JEvent newId new))
           ∧ given (b_title b) = Some (title new)
           ∧ given (b_description b) = Some (description new)
           ∧ given (b_location b) = Some (location new)
           ∧ (parseInt <$> given (b_capacity b)) = Some (Some (capacity new))
           ∧ (parseDate <$> given (b_dateTime b)) = Some (Some (dateTime new))
           ∧ createdBy new = user
           ∧ attendees new = []
           ∧ category new = "General"
           ∧ ∀ other, other ≠ newId → made.1 !! other = db !! other)
  ∧ (status made.2 ≠ 201 → made.1 = db).
Proof.
  intros made. subst made. unfold create_event. split_and!.
  - intros Hmissing.
    destruct (given (b_title b)), (given (b_description b)),
      (given (b_dateTime b)), (given (b_location b)), (given (b_capacity b));
      try done; repeat destruct Hmissing as [Hmissing|Hmissing]; discriminate.
  - destruct (given (b_title b)) as [t|], (given (b_description b)) as [d|],
      (given (b_dateTime b)) as [dt|], (given (b_location b)) as [l|],
      (given (b_capacity b)) as [c|]; try discriminate.
    destruct (parseInt c) as [n|] eqn:Hn; [|discriminate].
    destruct (n <? 1)%Z; [discriminate|].
    destruct (parseDate dt) as [when|] eqn:Hwhen; [|discriminate].
    destruct (db !! newId) eqn:Hnew; [discriminate|]. intros _.
    split; [done|]. eexists. split; [done|]. cbn.
    split_and!; try done.
    + by rewrite Hn.
    + by rewrite Hwhen.
    + intros other Hne. by apply lookup_insert_ne.
  - destruct (given (b_title b)) as [t|], (given (b_description b)) as [d|],
      (given (b_dateTime b)) as [dt|], (given (b_location b)) as [l|],
      (given (b_capacity b)) as [c|]; try done.
    destruct (parseInt c) as [n|]; [|done].
    destruct (n <? 1)%Z; [done|].
    destruct (parseDate dt) as [when|]; [|done].
    destruct (db !! newId) eqn:Hnew; done.
Qed.

(** X6. An edit that is accepted keeps the creator and the attendees of the
    event, leaves every text the form does not fill (absent or empty) as it
    was and stores the ones it fills, keeps the image unless a file comes
    with it, and touches no other event; an edit that is not accepted
    writes nothing; and the creator's edit with an empty form and no file
    is accepted and changes nothing at all. *)
Theorem update_event_frame (db : Store) user eventId ev b file :
  db !! eventId = Some ev →
  let edited := update_event parseDate db user eventId b file in
  (status edited.2 = 200 →
     ∃ ev', edited = (<[eventId := ev']> db, ok (JEvent eventId ev'))
       ∧ createdBy ev' = createdBy ev
       ∧ attendees ev' = attendees ev
       ∧ title ev' = default (title ev) (given (b_title b))
       ∧ description ev' = default (description ev) (given (b_description b))
       ∧ location ev' = default (location ev) (given (b_location b))
       ∧ category ev' = default (category ev) (given (b_category b))
       ∧ (given (b_capacity b) = None → capacity ev' = capacity ev)
       ∧ (given (b_dateTime b) = None → dateTime ev' = dateTime ev)
       ∧ (file = None → imageData ev' = imageData ev
                        ∧ imageContentType ev' = imageContentType ev)
       ∧ ∀ other, other ≠ eventId → edited.1 !! other = db !! other)
  ∧ (status edited.2 ≠ 200 → edited.1 = db)
  ∧ (createdBy ev = user →
       update_event parseDate db user eventId blank None
       = (db, ok (JEvent eventId ev))).
Proof.
  intros Hev edited. subst edited. unfold update_event, findById. rewrite Hev.
  split_and!.
  - destruct (negb _); [discriminate|].
    destruct (check_capacity ev (b_capacity b)) as [early|cap] eqn:Hcap.
    { unfold check_capacity in Hcap. repeat case_match; try discriminate;
        injection Hcap as <-; discriminate. }
    destruct (given (b_dateTime b)) as [dt|] eqn:Hdt.
    + destruct (parseDate dt) as [when|]; [|discriminate]. intros _.
      eexists. split; [done|]. cbn. unfold assign.
      split_and!; try done;
        [ intros Hnone; unfold check_capacity in Hcap; rewrite Hnone in Hcap;
          by injection Hcap as <-
        | by intros ->
        | intros other Hne; by apply lookup_insert_ne ].
    + intros _. eexists. split; [done|]. cbn. unfold assign.
      split_and!; try done;
        [ intros Hnone; unfold check_capacity in Hcap; rewrite Hnone in Hcap;
          by injection Hcap as <-
        | by intros ->
        | intros other Hne; by apply lookup_insert_ne ].
  - destruct (negb _); [done|].
    destruct (check_capacity ev (b_capacity b)) as [early|cap]; [done|].
    destruct (match given (b_dateTime b) with
              | Some dt => parseDate dt
              | None => Some (dateTime ev)
              end); [|done].
    cbn. done.
  - intros <-. rewrite String.eqb_refl. cbn.
    assert (mkEvent (title ev) (description ev) (dateTime ev) (location ev)
              (capacity ev) (category ev) (imageData ev) (imageContentType ev)
              (createdBy ev) (attendees ev) = ev) as -> by by destruct ev.
    by rewrite insert_id.
Qed.

(** X7. Once its creator has deleted an event, the event is gone and every
    other event is as before; a join, a leave, an edit, a second deletion
    and a read of it are all answered 404 and write nothing. *)
Theorem delete_event_gone (db : Store) user eventId ev :
  db !! eventId = Some ev → createdBy ev = user →
  let db' := (delete_event db user eventId).1 in
  delete_event db user eventId = (delete eventId db, ok (JMessage "Event deleted"))
  ∧ db' !! eventId = None
  ∧ (∀ other, other ≠ eventId → db' !! other = db !! other)
  ∧ (∀ who, rsvp db' eventId who = (db', reason_response NotFound))
  ∧ (∀ who, unrsvp db' eventId who = (db', reply 404 msg_not_found))
  ∧ (∀ who b file,
       update_event parseDate db' who eventId b file
       = (db', reply 404 msg_not_found))
  ∧ (∀ who, delete_event db' who eventId = (db', reply 404 msg_not_found))
  ∧ (∀ users, get_event users db' eventId = NotSent 404 msg_not_found).
Proof.
  intros Hev Hby db'. subst db'.
  assert (delete_event db user eventId
          = (delete eventId db, ok (JMessage "Event deleted"))) as ->.
  { unfold delete_event, findById. by rewrite Hev, Hby, String.eqb_refl. }
  cbn [fst].
  assert (delete eventId db !! eventId = None) as Hgone by apply lookup_delete_eq.
  split_and!.
  - done.
  - done.
  - intros other Hne. by apply lookup_delete_ne.
  - intros who. unfold rsvp. rewrite rsvp_at_rejected.
    + unfold findById. by rewrite Hgone.
    + intros ev0. by rewrite Hgone.
  - intros who. by apply unrsvp_missing.
  - intros who b file. unfold update_event, findById. by rewrite Hgone.
  - intros who. unfold delete_event, findById. by rewrite Hgone.
  - intros users. unfold get_event, findById. by rewrite Hgone.
Qed.

End Writes.

Lemma update_event_frame_witness :
  update_event Sample.epoch (Sample.one 3 [Sample.alice]) Sample.carol
    Sample.party blank None
  = (Sample.one 3 [Sample.alice],
     ok (JEvent Sample.party (Sample.event 3 [Sample.alice]))).
Proof.
  apply (update_event_frame Sample.epoch (Sample.one 3 [Sample.alice])
           Sample.carol Sample.party (Sample.event 3 [Sample.alice]) blank None).
  - reflexivity.
  - reflexivity.
Defined.

Lemma delete_event_gone_witness :
  rsvp (delete_event (Sample.one 3 [Sample.alice]) Sample.carol Sample.party).1
       Sample.party Sample.bob
  = ((delete_event (Sample.one 3 [Sample.alice]) Sample.carol Sample.party).1,
     reason_response NotFound).
Proof.
  apply (delete_event_gone Sample.epoch (Sample.one 3 [Sample.alice])
           Sample.carol Sample.party (Sample.event 3 [Sample.alice])).
  - reflexivity.
  - reflexivity.
Defined.

Lemma create_event_frame_witness :
  ∃ new,
    create_event Sample.epoch (Sample.one 3 []) Sample.alice Sample.picnic
      (mkBody (Some "Picnic") (Some "Lunch outside") (Some "2026-06-01")
              (Some "Park") (Some "20") (Some "Sports")) None
    = (<[Sample.picnic := new]> (Sample.one 3 []),
       mkResponse 201 (JEvent Sample.picnic new))
    ∧ category new = "General".
Proof.
  destruct (create_event_frame Sample.epoch (Sample.one 3 []) Sample.alice
              Sample.picnic
              (mkBody (Some "Picnic") (Some "Lunch outside") (Some "2026-06-01")
                      (Some "Park") (Some "20") (Some "Sports")) None)
    as (_ & Hmade & _).
  destruct Hmade as (_ & new & Hnew & _ & _ & _ & _ & _ & _ & _ & Hcat & _);
    [reflexivity|].
  exists new. split; [exact Hnew | exact Hcat].
Defined.

(** ** Reading routes *)

#[local] Instance by_date_total : Total by_date.
Proof. intros a b. unfold by_date. lia. Qed.

#[local] Instance by_date_trans : Transitive by_date.
Proof. intros a b c. unfold by_date. lia. Qed.

Lemma elem_of_find (db : Store) cond _id doc :
  (_id, doc) ∈ find db cond ↔ db !! _id = Some doc ∧ cond doc = true.
Proof.
  unfold find. rewrite merge_sort_Permutation, list_elem_of_filter.
  rewrite elem_of_map_to_list. cbn. tauto.
Qed.

Lemma find_sorted (db : Store) cond : StronglySorted by_date (find db cond).
Proof. apply StronglySorted_merge_sort; apply _. Qed.

Lemma find_NoDup (db : Store) cond : NoDup (find db cond).*1.
Proof.
  unfold find. rewrite merge_sort_Permutation.
  assert (∀ l : list (string * Event),
            NoDup l.*1 → NoDup (filter (λ kv, cond kv.2 = true) l).*1) as Hsub.
  { induction l as [|kv l IH]; [done|]. rewrite fmap_cons, NoDup_cons.
    intros [Hkv Hl]. destruct (decide (cond kv.2 = true)).
    - rewrite filter_cons_True by done. rewrite fmap_cons, NoDup_cons.
      split; [|by apply IH]. intros Hin. apply Hkv.
      apply list_elem_of_fmap in Hin as (kv' & -> & Hin').
      apply list_elem_of_filter in Hin' as [_ Hin'].
      apply list_elem_of_fmap. eauto.
    - rewrite filter_cons_False by done. by apply IH. }
  apply Hsub, NoDup_fst_map_to_list.
Qed.

(** The items a reading route sends are the documents [find] yields. *)
Lemma elem_of_listed users (found : list (string * Event)) item :
  item ∈ (λ kv, listed users kv.1 kv.2) <$> found ↔
  (l_id item, l_doc item) ∈ found
  ∧ item = listed users (l_id item) (l_doc item).
Proof.
  rewrite list_elem_of_fmap. split.
  - intros ([_id doc] & -> & Hin). done.
  - intros [Hin Hitem]. exists (l_id item, l_doc item). done.
Qed.

Lemma listed_ids users (found : list (string * Event)) :
  l_id <$> ((λ kv, listed users kv.1 kv.2) <$> found) = found.*1.
Proof. rewrite <- list_fmap_compose. by apply list_fmap_ext. Qed.

Lemma listed_sorted users (found : list (string * Event)) :
  StronglySorted by_date found →
  StronglySorted (λ a b, (dateTime (l_doc a) ≤ dateTime (l_doc b))%Z)
    ((λ kv, listed users kv.1 kv.2) <$> found).
Proof.
  induction 1 as [|kv l Hl IH Hkv]; [constructor|].
  rewrite fmap_cons. constructor; [done|].
  apply Forall_fmap. eapply Forall_impl; [exact Hkv|]. done.
Qed.

(** X8. The list of the events a user attends holds exactly the events
    with the user among the attendees, each once, by ascending date, each
    with the count of its attendees; so an event is on the list right after
    the user's join has succeeded, and off it right after the user's leave. *)
Theorem attending_exact (users : gmap string User) (db later : Store) user :
  (∀ item, item ∈ attending users db user ↔
     db !! l_id item = Some (l_doc item) ∧ user ∈ attendees (l_doc item)
     ∧ item = listed users (l_id item) (l_doc item))
  ∧ (∀ item, item ∈ attending users db user →
       l_attendeeCount item = length (attendees (l_doc item)))
  ∧ NoDup (l_id <$> attending users db user)
  ∧ StronglySorted (λ a b, (dateTime (l_doc a) ≤ dateTime (l_doc b))%Z)
      (attending users db user)
  ∧ (∀ eventId, succeeded (rsvp_at db later eventId user).2 = true →
       eventId ∈ l_id <$> attending users (rsvp_at db later eventId user).1 user)
  ∧ (∀ eventId,
       eventId ∉ l_id <$> attending users (unrsvp db eventId user).1 user).
Proof.
  assert (∀ d item, item ∈ attending users d user ↔
            d !! l_id item = Some (l_doc item) ∧ user ∈ attendees (l_doc item)
            ∧ item = listed users (l_id item) (l_doc item)) as Hin.
  { intros d item. unfold attending. rewrite elem_of_listed, elem_of_find.
    rewrite bool_decide_eq_true. tauto. }
  assert (∀ d eventId, eventId ∈ l_id <$> attending users d user ↔
            member d eventId user) as Hids.
  { intros d eventId. rewrite list_elem_of_fmap. unfold member. split.
    - intros (item & -> & (Hdoc & Huser & _)%Hin). eauto.
    - intros (ev & Hev & Huser). exists (listed users eventId ev).
      split; [done|]. by apply Hin. }
  split_and!.
  - apply Hin.
  - intros item (_ & _ & ->)%Hin. done.
  - unfold attending. rewrite listed_ids. apply find_NoDup.
  - apply listed_sorted, find_sorted.
  - intros eventId (ev & Hev & Hnew & Hroom)%rsvp_at_succeeded. apply Hids.
    rewrite (rsvp_at_joined _ _ _ _ ev) by done. cbn [fst].
    eexists. rewrite lookup_insert_eq. split; [done|]. cbn.
    apply elem_of_app. right. by apply list_elem_of_singleton.
  - intros eventId. rewrite Hids. intros (ev' & Hev' & Huser).
    destruct (db !! eventId) as [ev|] eqn:Hev.
    + rewrite (unrsvp_found _ _ _ ev) in Hev' by done. cbn [fst] in Hev'.
      rewrite lookup_insert_eq in Hev'.
      injection Hev' as <-. by apply pull_not_elem in Huser.
    + rewrite unrsvp_missing in Hev' by done. cbn in Hev'. congruence.
Qed.

Lemma attending_exact_witness :
  Sample.party
  ∈ l_id <$> attending ∅
               (rsvp (Sample.one 2 [Sample.alice]) Sample.party Sample.bob).1
               Sample.bob.
Proof.
  apply (attending_exact ∅ (Sample.one 2 [Sample.alice])
           (Sample.one 2 [Sample.alice]) Sample.bob).
  vm_compute. reflexivity.
Defined.

Section Reads.

Variable parseDate : string → option Z.

(** X9. The list of a user's own events holds exactly the events they
    created, each once, by ascending date; and no request changes the
    creator of an event, so no request moves an event from one user's list
    to another's. *)
Theorem my_events_exact (users : gmap string User) (db : Store) user :
  (∀ item, item ∈ my_events users db user ↔
     db !! l_id item = Some (l_doc item) ∧ createdBy (l_doc item) = user
     ∧ item = listed users (l_id item) (l_doc item))
  ∧ NoDup (l_id <$> my_events users db user)
  ∧ StronglySorted (λ a b, (dateTime (l_doc a) ≤ dateTime (l_doc b))%Z)
      (my_events users db user)
  ∧ (∀ r eventId ev ev',
       db !! eventId = Some ev →
       (handle parseDate db r).1 !! eventId = Some ev' →
       createdBy ev' = createdBy ev).
Proof.
  split_and!.
  - intros item. unfold my_events. rewrite elem_of_listed, elem_of_find.
    rewrite bool_decide_eq_true. tauto.
  - unfold my_events. rewrite listed_ids. apply find_NoDup.
  - apply listed_sorted, find_sorted.
  - intros r eventId ev ev' Hev Hev'.
    destruct (handle_effect parseDate db r)
      as [ | ? newId ??? Hnew | ? id ?? ev0 ev1 Hev0 ? ? Hby
         | ? id ev0 Hev0 | ? id ev0 Hev0 | ? id ev0 Hev0 ].
    + congruence.
    + rewrite lookup_insert_ne in Hev' by congruence. congruence.
    + destruct (decide (id = eventId)) as [-> | Hne].
      * rewrite lookup_insert_eq in Hev'. congruence.
      * rewrite lookup_insert_ne in Hev' by done. congruence.
    + destruct (decide (id = eventId)) as [-> | Hne].
      * by rewrite lookup_delete_eq in Hev'.
      * rewrite lookup_delete_ne in Hev' by done. congruence.
    + destruct (decide (id = eventId)) as [-> | Hne].
      * rewrite lookup_insert_eq in Hev'. injection Hev' as <-. cbn. congruence.
      * rewrite lookup_insert_ne in Hev' by done. congruence.
    + destruct (decide (id = eventId)) as [-> | Hne].
      * rewrite lookup_insert_eq in Hev'. injection Hev' as <-. cbn. congruence.
      * rewrite lookup_insert_ne in Hev' by done. congruence.
Qed.

(** A read after a join or a leave, from the cast on. *)
Lemma get_event_after (users : gmap string User) (db later : Store)
    eventId userId :
  (succeeded (rsvp_at db later eventId userId).2 = true →
     ∃ doc n,
       (rsvp_at db later eventId userId).2 = ok (JEventCount eventId doc n)
       ∧ get_event users (rsvp_at db later eventId userId).1 eventId
         = Found (mkListed eventId doc (populate users doc) n)
       ∧ n = length (attendees doc) ∧ userId ∈ attendees doc)
  ∧ (succeeded (unrsvp db eventId userId).2 = true →
       ∃ doc n,
         (unrsvp db eventId userId).2 = ok (JEventCount eventId doc n)
         ∧ get_event users (unrsvp db eventId userId).1 eventId
           = Found (mkListed eventId doc (populate users doc) n)
         ∧ n = length (attendees doc) ∧ userId ∉ attendees doc)
  ∧ ((∃ item, get_event users db eventId = Found item) ↔ is_Some (db !! eventId))
  ∧ (get_event users db eventId = NotSent 404 msg_not_found ↔
       db !! eventId = None).
Proof.
  split_and!.
  - intros (ev & Hev & Hnew & Hroom)%rsvp_at_succeeded.
    rewrite (rsvp_at_joined _ _ _ _ ev) by done. cbn [fst snd].
    eexists _, _. split; [done|]. unfold get_event, findById.
    rewrite lookup_insert_eq. unfold listed, attendeeCount. cbn.
    rewrite length_app. cbn. rewrite Nat.add_1_r. split_and!; [done..|].
    apply elem_of_app. right. by apply list_elem_of_singleton.
  - destruct (db !! eventId) as [ev|] eqn:Hev.
    + rewrite (unrsvp_found _ _ _ ev) by done. cbn [fst snd]. intros _.
      eexists _, _. split; [done|]. unfold get_event, findById.
      rewrite lookup_insert_eq. split_and!; [done..|]. cbn.
      apply pull_not_elem.
    + rewrite unrsvp_missing by done. intros [=].
  - unfold get_event, findById. destruct (db !! eventId) as [ev|].
    + split; eauto.
    + split; [by intros [? [=]] | by intros [? [=]]].
  - unfold get_event, findById. by destruct (db !! eventId) as [ev|].
Qed.

End Reads.

Section ReadRoute.

Variable castObjectId : string → option ObjectId.

(** X10. Right after a join or a leave has succeeded, a read of the same
    id answers the document and the attendee count that the join or the
    leave answered, with the creator looked up; the participant is in that
    document after a join and not in it after a leave. A read finds an
    event exactly when the id casts to that of a stored event, answers 404
    exactly when the id casts to an id that no event has, and 500 exactly
    when the id does not cast. *)
Theorem get_by_id_agrees (users : gmap string User) (db later : Store)
    id userId :
  (succeeded (post_rsvp castObjectId db later id userId).2 = true →
     ∃ eventId doc n,
       castObjectId id = Some eventId
       ∧ (post_rsvp castObjectId db later id userId).2
         = ok (JEventCount eventId doc n)
       ∧ get_by_id castObjectId users
           (post_rsvp castObjectId db later id userId).1 id
         = Found (mkListed eventId doc (populate users doc) n)
       ∧ n = length (attendees doc) ∧ userId ∈ attendees doc)
  ∧ (succeeded (post_unrsvp castObjectId db id userId).2 = true →
       ∃ eventId doc n,
         castObjectId id = Some eventId
         ∧ (post_unrsvp castObjectId db id userId).2
           = ok (JEventCount eventId doc n)
         ∧ get_by_id castObjectId users
             (post_unrsvp castObjectId db id userId).1 id
           = Found (mkListed eventId doc (populate users doc) n)
         ∧ n = length (attendees doc) ∧ userId ∉ attendees doc)
  ∧ ((∃ item, get_by_id castObjectId users db id = Found item) ↔
       ∃ eventId, castObjectId id = Some eventId ∧ is_Some (db !! eventId))
  ∧ (get_by_id castObjectId users db id = NotSent 404 msg_not_found ↔
       ∃ eventId, castObjectId id = Some eventId ∧ db !! eventId = None)
  ∧ (get_by_id castObjectId users db id = NotSent 500 msg_server ↔
       castObjectId id = None).
Proof.
  unfold post_rsvp, post_unrsvp, get_by_id.
  destruct (castObjectId id) as [eventId|].
  - destruct (get_event_after users db later eventId userId)
      as (Hjoin & Hleave & Hfound & Hmissing).
    split_and!.
    + intros (doc & n & ?)%Hjoin. exists eventId, doc, n. eauto.
    + intros (doc & n & ?)%Hleave. exists eventId, doc, n. eauto.
    + rewrite Hfound. split; [eauto|]. by intros (? & [= <-] & ?).
    + rewrite Hmissing. split; [eauto|]. by intros (? & [= <-] & ?).
    + split; [|done]. unfold get_event.
      destruct (findById db eventId); [done|]. intros Hserver.
      vm_compute in Hserver. discriminate Hserver.
  - cbn [fst snd]. split_and!.
    + intros Hs. vm_compute in Hs. discriminate Hs.
    + intros Hs. vm_compute in Hs. discriminate Hs.
    + split; [by intros [? [=]] | by intros (? & [=] & _)].
    + split; [|by intros (? & [=] & _)]. intros Hserver.
      vm_compute in Hserver. discriminate Hserver.
    + done.
Qed.

End ReadRoute.

Lemma get_by_id_agrees_witness :
  get_by_id cast24 ∅
    (post_rsvp cast24 (Sample.one 2 [Sample.alice]) (Sample.one 2 [Sample.alice])
       Sample.party Sample.bob).1
    Sample.party
  = Found (mkListed Sample.party (Sample.event 2 [Sample.alice; Sample.bob])
             None 2).
Proof.
  destruct (get_by_id_agrees cast24 ∅ (Sample.one 2 [Sample.alice])
              (Sample.one 2 [Sample.alice]) Sample.party Sample.bob)
    as (Hjoin & _).
  destruct Hjoin as (eventId & doc & n & _ & Hresp & Hget & _);
    [vm_compute; reflexivity|].
  vm_compute in Hresp. injection Hresp as <- <- <-. exact Hget.
Defined.

(** A read of an id that is no ObjectId is answered 500, not 404. *)
Example get_by_id_uncastable_id :
  get_by_id cast24 ∅ (Sample.one 2 []) "not-an-id" = NotSent 500 msg_server
  ∧ get_by_id cast24 ∅ (Sample.one 2 []) Sample.picnic
    = NotSent 404 msg_not_found.
Proof. vm_compute. done. Qed.

Section ListingProperties.

Variable parseDate : string → option Z.
Variable regex : string → option (string → bool).

(** X11. The public list answers 500 exactly when a start date, an end
    date or a search pattern is set that the store cannot read. Otherwise it
    holds, each once and by ascending date, exactly the stored events that:
    are dated at or after the start date if one is set and at or after now
    if none is; are dated at or before the end date if set; are of the
    category if one other than All is set; and match the pattern in title,
    description or location if one is set. So with a start date set, the
    present moment plays no part in the answer. *)
Theorem list_events_exact (now : Z) (q : Query) (users : gmap string User)
    (db : Store) :
  let answer := list_events parseDate regex now q users db in
  (answer = NotSent 500 msg_server ↔
     (∃ s, given (q_startDate q) = Some s ∧ parseDate s = None)
     ∨ (∃ s, given (q_endDate q) = Some s ∧ parseDate s = None)
     ∨ (∃ s, given (q_search q) = Some s ∧ regex s = None))
  ∧ (∀ items, answer = Found items →
       NoDup (l_id <$> items)
       ∧ StronglySorted (λ a b, (dateTime (l_doc a) ≤ dateTime (l_doc b))%Z) items
       ∧ ∀ item, item ∈ items ↔
           db !! l_id item = Some (l_doc item)
           ∧ item = listed users (l_id item) (l_doc item)
           ∧ match given (q_startDate q) with
             | Some s => ∃ from, parseDate s = Some from
                                 ∧ (from ≤ dateTime (l_doc item))%Z
             | None => (now ≤ dateTime (l_doc item))%Z
             end
           ∧ (∀ s, given (q_endDate q) = Some s →
                ∃ upto, parseDate s = Some upto
                        ∧ (dateTime (l_doc item) ≤ upto)%Z)
           ∧ (∀ c, given (q_category q) = Some c → c ≠ "All" →
                category (l_doc item) = c)
           ∧ (∀ s, given (q_search q) = Some s →
                ∃ test, regex s = Some test
                        ∧ (test (title (l_doc item)) = true
                           ∨ test (description (l_doc item)) = true
                           ∨ test (location (l_doc item)) = true)))
  ∧ (given (q_startDate q) ≠ None →
     ∀ now', list_events parseDate regex now' q users db = answer).
Proof.
  intros answer. subst answer. unfold list_events. split_and!.
  - destruct (given (q_startDate q)) as [s1|];
      [destruct (parseDate s1) as [from|] eqn:H1|];
      (destruct (given (q_endDate q)) as [s2|];
       [destruct (parseDate s2) as [upto|] eqn:H2|]);
      (destruct (given (q_search q)) as [s3|];
       [destruct (regex s3) as [test|] eqn:H3|]);
      cbn; (split; [try done; eauto 6 | ]);
      try (intros [(s & [= <-] & Hs) | [(s & [= <-] & Hs) | (s & [= <-] & Hs)]];
           congruence);
      try (intros [(s & [=] & _) | [(s & [= <-] & Hs) | (s & [= <-] & Hs)]];
           congruence);
      try (intros [(s & [= <-] & Hs) | [(s & [=] & _) | (s & [= <-] & Hs)]];
           congruence);
      try (intros [(s & [= <-] & Hs) | [(s & [= <-] & Hs) | (s & [=] & _)]];
           congruence);
      try (intros [(s & [=] & _) | [(s & [=] & _) | (s & [= <-] & Hs)]];
           congruence);
      try (intros [(s & [=] & _) | [(s & [= <-] & Hs) | (s & [=] & _)]];
           congruence);
      try (intros [(s & [= <-] & Hs) | [(s & [=] & _) | (s & [=] & _)]];
           congruence);
      try (intros [(s & [=] & _) | [(s & [=] & _) | (s & [=] & _)]]).
  - intros items Hitems.
    destruct (match given (q_startDate q) with
              | Some s => parseDate s
              | None => Some now
              end) as [from|] eqn:Hfrom; [|discriminate].
    destruct (match given (q_endDate q) with
              | Some s => Some <$> parseDate s
              | None => Some None
              end) as [upto|] eqn:Hupto; [|discriminate].
    destruct (match given (q_search q) with
              | Some s => Some <$> regex s
              | None => Some None
              end) as [pattern|] eqn:Hpattern; [|discriminate].
    injection Hitems as <-. split_and!.
    + rewrite listed_ids. apply find_NoDup.
    + apply listed_sorted, find_sorted.
    + intros item. rewrite elem_of_listed, elem_of_find. unfold list_filter.
      rewrite !andb_true_iff, Z.leb_le.
      assert ((from ≤ dateTime (l_doc item))%Z ↔
              match given (q_startDate q) with
              | Some s => ∃ from', parseDate s = Some from'
                                   ∧ (from' ≤ dateTime (l_doc item))%Z
              | None => (now ≤ dateTime (l_doc item))%Z
              end) as ->.
      { destruct (given (q_startDate q)) as [s|].
        - rewrite Hfrom. split; [eauto|]. intros (from' & Hf' & Hle').
          by injection Hf' as <-.
        - by injection Hfrom as <-. }
      assert ((if upto is Some t then (dateTime (l_doc item) <=? t)%Z else true)
              = true ↔
              ∀ s, given (q_endDate q) = Some s →
                   ∃ t, parseDate s = Some t ∧ (dateTime (l_doc item) ≤ t)%Z)
        as ->.
      { destruct (given (q_endDate q)) as [s|].
        - destruct (parseDate s) as [t|] eqn:Hs; [|discriminate].
          injection Hupto as <-. rewrite Z.leb_le. split.
          + intros Hle ? [= <-]. eauto.
          + intros Hle. destruct (Hle s eq_refl) as (t' & Ht' & Hle').
            congruence.
        - injection Hupto as <-. split; [by intros _ ? [=] | done]. }
      assert ((if match given (q_category q) with
                  | Some c => if String.eqb c "All" then None else Some c
                  | None => None
                  end is Some c
               then String.eqb (category (l_doc item)) c else true) = true ↔
              ∀ c, given (q_category q) = Some c → c ≠ "All" →
                   category (l_doc item) = c) as ->.
      { destruct (given (q_category q)) as [c|].
        - destruct (String.eqb c "All") eqn:Hall.
          + apply String.eqb_eq in Hall as ->. split; [|done].
            by intros _ ? [= <-].
          + apply String.eqb_neq in Hall. rewrite String.eqb_eq. split.
            * by intros Hc ? [= <-] _.
            * intros Hc. by apply Hc.
        - split; [by intros _ ? [=] | done]. }
      assert ((if pattern is Some test
               then test (title (l_doc item)) || test (description (l_doc item))
                    || test (location (l_doc item))
               else true) = true ↔
              ∀ s, given (q_search q) = Some s →
                   ∃ test, regex s = Some test
                           ∧ (test (title (l_doc item)) = true
                              ∨ test (description (l_doc item)) = true
                              ∨ test (location (l_doc item)) = true)) as ->.
      { destruct (given (q_search q)) as [s|].
        - destruct (regex s) as [test|] eqn:Hs; [|discriminate].
          injection Hpattern as <-. rewrite !orb_true_iff. split.
          + intros Hm ? [= <-]. exists test. tauto.
          + intros Hm. destruct (Hm s eq_refl) as (test' & Ht' & Hm').
            assert (test' = test) as -> by congruence. tauto.
        - injection Hpattern as <-. split; [by intros _ ? [=] | done]. }
      tauto.
  - intros Hstart now'. by destruct (given (q_startDate q)).
Qed.

End ListingProperties.

(** With a start date in the form, an event that is over can be listed. *)
Lemma list_events_exact_witness :
  list_events Sample.epoch (λ _, None) 2000000000000
    (mkQuery None (Some "1970-01-01") None None) ∅ (Sample.one 3 [])
  = Found [listed ∅ Sample.party (Sample.event 3 [])].
Proof.
  destruct (list_events_exact Sample.epoch (λ _, None) 0
              (mkQuery None (Some "1970-01-01") None None) ∅ (Sample.one 3 []))
    as (_ & _ & Hnow).
  rewrite (Hnow ltac:(discriminate) 2000000000000%Z).
  vm_compute. reflexivity.
Defined.

(** ** The event card *)

Lemma or_count_length (n : nat) : or_count n (or_count n 0) = n.
Proof. unfold or_count. by repeat case_decide. Qed.

(** X12. For a signed-in user looking at an event as the server holds it,
    the card offers the RSVP button exactly when the user is not shown as
    the creator and a join sent at once would succeed; it offers nothing to
    a visitor who is not signed in; it shows the event as full exactly when
    the attendees have reached the capacity; and, the creator's account
    being on file, it shows as creator the creator and nobody else. *)
Theorem canRSVP_exact (users : gmap string User) (db : Store) eventId ev uid :
  db !! eventId = Some ev →
  let card := listed users eventId ev in
  (canRSVP (Some uid) card = true ↔
     isCreator (Some uid) card = false
     ∧ succeeded (rsvp db eventId uid).2 = true)
  ∧ canRSVP None card = false
  ∧ (isFull card = true ↔
       (capacity ev ≤ Z.of_nat (length (attendees ev)))%Z)
  ∧ (isAttending (Some uid) card = true ↔ uid ∈ attendees ev)
  ∧ (is_Some (users !! createdBy ev) →
       isCreator (Some uid) card = true ↔ uid = createdBy ev).
Proof.
  intros Hev card. subst card.
  assert (isFull (listed users eventId ev) = true ↔
          (capacity ev ≤ Z.of_nat (length (attendees ev)))%Z) as Hfull.
  { unfold isFull, listed, attendeeCount. cbn.
    by rewrite or_count_length, Z.leb_le. }
  assert (isAttending (Some uid) (listed users eventId ev) = true ↔
          uid ∈ attendees ev) as Hattending.
  { apply (alreadyJoined_true ev uid). }
  split_and!; [|done|done|done|].
  - unfold canRSVP. rewrite !andb_true_iff, !negb_true_iff.
    unfold rsvp. rewrite rsvp_at_succeeded.
    rewrite <- (not_true_iff_false (isAttending _ _)), Hattending.
    rewrite <- (not_true_iff_false (isFull _)), Hfull. split.
    + intros [[Hcreator Hout] Hroom]. split; [done|].
      exists ev. split_and!; [done | done | lia].
    + intros [Hcreator (ev0 & Hev0 & Hout & Hroom)].
      assert (ev0 = ev) as -> by congruence. split_and!; [done | done | lia].
  - intros [who Hwho]. unfold isCreator, listed, populate. cbn.
    rewrite Hwho. cbn. rewrite String.eqb_eq. split; congruence.
Qed.

Lemma canRSVP_exact_witness :
  canRSVP (Some Sample.bob) (listed ∅ Sample.party (Sample.event 2 [Sample.alice]))
  = true.
Proof.
  apply (canRSVP_exact ∅ (Sample.one 2 [Sample.alice]) Sample.party
           (Sample.event 2 [Sample.alice]) Sample.bob eq_refl).
  split; vm_compute; reflexivity.
Defined.

(** ** The description generator *)

Lemma tryModels_passes_on fetch pre rest lastError :
  Forall (λ p, passes_on (fetch p) = true) pre →
  ∃ lastError', tryModels fetch (pre ++ rest) lastError
                = tryModels fetch rest lastError'.
Proof.
  intros Hpre. revert lastError.
  induction Hpre as [|p pre Hp _ IH]; intros lastError; [by eexists|].
  cbn [app tryModels]. destruct (fetch p) as [message | text | error]; cbn in Hp.
  - apply IH.
  - apply bool_decide_eq_true in Hp. rewrite Hp. apply IH.
  - rewrite Hp. apply IH.
Qed.

(** The loop stops at the first model that does not pass on. *)
Lemma tryModels_first fetch models lastError :
  (Forall (λ p, passes_on (fetch p) = true) models
   ∧ ∃ lastError', tryModels fetch models lastError = inr lastError')
  ∨ (∃ pre m post, models = pre ++ m :: post
       ∧ Forall (λ p, passes_on (fetch p) = true) pre
       ∧ passes_on (fetch m) = false).
Proof.
  revert lastError. induction models as [|p models IH]; intros lastError.
  - left. split; [constructor | by eexists].
  - destruct (passes_on (fetch p)) eqn:Hp.
    + destruct (tryModels_passes_on fetch [p] models lastError) as [e He].
      { by repeat constructor. }
      cbn [app] in He. rewrite He.
      destruct (IH e) as [[Hall Hend] | (pre & m & post & -> & Hpre & Hm)].
      * left. split; [by constructor | done].
      * right. exists (p :: pre), m, post. split; [done|].
        split; [by constructor | done].
    + right. exists [], p, models. split; [done|]. split; [constructor | done].
Qed.

(** X13. The route answers with a description exactly when a title and the
    API key are set and, in the order of the list, the first model whose
    call neither raises, nor comes back without a text, nor is refused with
    a quota message, comes back with a text; the description is then that
    text, trimmed, and the models after it are not asked. *)
Theorem generate_description_text (apiKey title : option string)
    (fetch : string → Fetched) (description : string) :
  generate_description apiKey fetch title = Description description ↔
  given title ≠ None ∧ given apiKey ≠ None
  ∧ ∃ pre m post text,
      modelsToTry = pre ++ m :: post
      ∧ Forall (λ p, passes_on (fetch p) = true) pre
      ∧ fetch m = Generated (Some text) ∧ text ≠ ""
      ∧ description = trim text.
Proof.
  unfold generate_description.
  destruct (given title) as [t|]; [|split; [discriminate | by intros [? _]]].
  destruct (given apiKey) as [k|]; [|split; [discriminate | by intros (_ & ? & _)]].
  assert (∀ e, afterModels e ≠ Description description) as Hafter.
  { intros [message|]; cbn; [|done]. by repeat case_match. }
  split.
  - intros Hsent. split; [done|]. split; [done|].
    destruct (tryModels_first fetch modelsToTry None)
      as [[_ [e He]] | (pre & m & post & Hlist & Hpre & Hm)].
    + rewrite He in Hsent. by apply Hafter in Hsent.
    + exists pre, m, post. rewrite Hlist in Hsent |- *.
      destruct (tryModels_passes_on fetch pre (m :: post) None Hpre) as [e He].
      rewrite He in Hsent. cbn [tryModels] in Hsent.
      destruct (fetch m) as [message | text | error]; cbn in Hm; [done| |].
      * apply bool_decide_eq_false in Hm.
        destruct text as [text|]; [|done]. exists text.
        destruct (decide (text = "")) as [-> | Hne]; [done|].
        assert (given (Some text) = Some text) as Hgiven by by destruct text.
        rewrite Hgiven in Hsent. injection Hsent as <-. done.
      * rewrite Hm in Hsent. by apply Hafter in Hsent.
  - intros (_ & _ & pre & m & post & text & -> & Hpre & Hm & Hne & ->).
    destruct (tryModels_passes_on fetch pre (m :: post) None Hpre) as [e ->].
    cbn [tryModels]. rewrite Hm.
    by assert (given (Some text) = Some text) as -> by by destruct text.
Qed.

(** The second model answers after the first has run out of quota. *)
Lemma generate_description_text_witness :
  generate_description (Some "key")
    (λ m, if String.eqb m "gemini-flash-latest"
          then Rejected (Some (Some "Quota exceeded for this model"))
          else Generated (Some "  A day by the sea.  "))
    (Some "Regatta")
  = Description "A day by the sea.".
Proof.
  apply generate_description_text. split; [discriminate|].
  split; [discriminate|].
  exists ["gemini-flash-latest"], "gemini-2.0-flash",
         ["gemini-2.5-flash"; "gemini-pro-latest"], "  A day by the sea.  ".
  split_and!; [reflexivity | by repeat constructor | reflexivity
              | discriminate | reflexivity].
Defined.

(** X14. Without a title the route answers 400, and with a title but no API
    key 500. A model that refuses for a reason other than quota ends the
    loop, whatever the models after it would say: the answer is 503 if its
    message speaks of overload and 500 otherwise, never 429. When every
    model refuses with a quota message, the answer is 429. No answer has a
    status other than 400, 429, 500 or 503. *)
Theorem generate_description_errors (apiKey title : option string)
    (fetch : string → Fetched) :
  (given title = None →
     generate_description apiKey fetch title = AiError 400 "Title is required")
  ∧ (given title ≠ None → given apiKey = None →
       ∃ message, generate_description apiKey fetch title = AiError 500 message)
  ∧ (given title ≠ None → given apiKey ≠ None →
     ∀ pre m post error,
       modelsToTry = pre ++ m :: post →
       Forall (λ p, passes_on (fetch p) = true) pre →
       fetch m = Rejected error → isQuota (error ≫= id) = false →
       generate_description apiKey fetch title = afterModels error
       ∧ ∃ code message, afterModels error = AiError code message
           ∧ (code = 503%nat ∨ code = 500%nat)
           ∧ (code = 503%nat ↔ mentions "overloaded" (error ≫= id) = true))
  ∧ (given title ≠ None → given apiKey ≠ None →
     (∀ m, m ∈ modelsToTry →
        ∃ message, fetch m = Rejected (Some message) ∧ isQuota message = true) →
     ∃ message, generate_description apiKey fetch title = AiError 429 message)
  ∧ (∀ code message,
       generate_description apiKey fetch title = AiError code message →
       code ∈ [400; 429; 500; 503]%nat).
Proof.
  assert (∀ e code message, afterModels e = AiError code message →
            code ∈ [400; 429; 500; 503]%nat) as Hcodes.
  { intros [m|] code message; cbn; repeat case_match; intros [= <- _];
      set_solver. }
  unfold generate_description. split_and!.
  - by intros ->.
  - intros Htitle ->. destruct (given title); [by eexists | done].
  - intros Htitle Hkey pre m post error Hlist Hpre Hm Hquota.
    destruct (given title); [|done]. destruct (given apiKey); [|done].
    rewrite Hlist.
    destruct (tryModels_passes_on fetch pre (m :: post) None Hpre) as [e ->].
    cbn [tryModels]. rewrite Hm, Hquota. split; [done|].
    destruct error as [message|]; cbn in *.
    + rewrite Hquota. destruct (mentions "overloaded" message) eqn:Hover.
      * eexists _, _. split; [done|]. split; [by left | done].
      * eexists _, _. split; [done|]. split; [by right | done].
    + eexists _, _. split; [done|]. split; [by right | done].
  - intros Htitle Hkey Hall.
    destruct (given title); [|done]. destruct (given apiKey); [|done].
    assert (∀ models e, models ≠ [] →
              (∀ m, m ∈ models → ∃ message,
                 fetch m = Rejected (Some message) ∧ isQuota message = true) →
              ∃ message, tryModels fetch models e = inr (Some message)
                         ∧ isQuota message = true) as Hloop.
    { induction models as [|m models IH]; intros e Hne Hmodels; [done|].
      destruct (Hmodels m) as (message & Hm & Hquota); [by left|].
      cbn [tryModels]. rewrite Hm.
      change (Some message ≫= id) with message. rewrite Hquota.
      destruct models as [|m' models]; [by eexists|].
      apply IH; [done|]. intros m'' Hm''. apply Hmodels. by right. }
    destruct (Hloop modelsToTry None) as (message & -> & Hquota); [done..|].
    cbn. rewrite Hquota. by eexists.
  - intros code message. destruct (given title); [|intros [= <- _]; set_solver].
    destruct (given apiKey); [|intros [= <- _]; set_solver].
    destruct (tryModels fetch modelsToTry None) as [sent|e] eqn:Hloop;
      [|apply Hcodes].
    intros ->. exfalso. revert Hloop. generalize (@None (option string)).
    induction modelsToTry as [|m models IH]; intros e; [done|].
    cbn [tryModels]. repeat case_match; try done; apply IH.
Qed.

(** A refusal for overload by the first model ends the loop, though the
    second would have answered. *)
Lemma generate_description_errors_witness :
  generate_description (Some "key")
    (λ m, if String.eqb m "gemini-flash-latest"
          then Rejected (Some (Some "The model is overloaded."))
          else Generated (Some "A day by the sea."))
    (Some "Regatta")
  = AiError 503 "AI service is temporarily overloaded. Please try again in a moment.".
Proof.
  destruct (generate_description_errors (Some "key") (Some "Regatta")
              (λ m, if String.eqb m "gemini-flash-latest"
                    then Rejected (Some (Some "The model is overloaded."))
                    else Generated (Some "A day by the sea.")))
    as (_ & _ & Hstop & _).
  destruct (Hstop ltac:(discriminate) ltac:(discriminate)
              [] "gemini-flash-latest"
              ["gemini-2.0-flash"; "gemini-2.5-flash"; "gemini-pro-latest"]
              (Some (Some "The model is overloaded."))
              eq_refl ltac:(constructor) eq_refl eq_refl) as [-> _].
  reflexivity.
Defined.

(** ** Interleavings are serial *)

Lemma advance_arrived (db : Store) eventId userId :
  (advance db eventId (Arrived userId)).1 = (rsvp db eventId userId).1
  ∧ ∀ v, (advance db eventId (Arrived userId)).2 ≠ Arrived v.
Proof.
  unfold rsvp, rsvp_at. cbn [advance].
  by destruct (findOneAndUpdate db eventId _ _) as [db' [updated|]].
Qed.

Lemma advance_settled (db : Store) eventId f :
  (∀ v, f ≠ Arrived v) →
  (advance db eventId f).1 = db ∧ ∀ v, (advance db eventId f).2 ≠ Arrived v.
Proof. intros Hf. destruct f as [u|u|r]; [by destruct (Hf u) | done..]. Qed.

Lemma waiting_insert_arrived pool i u f' :
  pool !! i = Some (Arrived u) → (∀ v, f' ≠ Arrived v) →
  waiting pool ≡ₚ u :: waiting (<[i := f']> pool).
Proof.
  intros (l1 & l2 & -> & ->)%list_elem_of_split_length Hf'.
  rewrite insert_app_r_alt, Nat.sub_diag by done. cbn [insert list_insert].
  rewrite !waiting_app.
  change (waiting (Arrived u :: l2)) with (u :: waiting l2).
  replace (waiting (f' :: l2)) with (waiting l2).
  - by rewrite Permutation_middle.
  - destruct f' as [v|v|r]; [by destruct (Hf' v) | done..].
Qed.

Lemma waiting_insert_settled pool i f f' :
  pool !! i = Some f → (∀ v, f ≠ Arrived v) → (∀ v, f' ≠ Arrived v) →
  waiting (<[i := f']> pool) = waiting pool.
Proof.
  intros (l1 & l2 & -> & ->)%list_elem_of_split_length Hf Hf'.
  rewrite insert_app_r_alt, Nat.sub_diag by done. cbn [insert list_insert].
  rewrite !waiting_app. f_equal.
  destruct f as [v|v|r]; [by destruct (Hf v)|..];
    (destruct f' as [v'|v'|r']; [by destruct (Hf' v') | done..]).
Qed.

Section Serial.

Variable parseDate : string → option Z.

Lemma serve_ask_snoc (db : Store) eventId us :
  (serve parseDate db (ask eventId us)).1
  = foldl (λ d u, (rsvp d eventId u).1) db us.
Proof.
  revert db. induction us as [|u us IH]; intros db; [done|].
  rewrite serve_ask_cons. cbn [fst foldl]. apply IH.
Qed.

Lemma interleave_commits schedule : ∀ (db : Store) eventId pool,
  (interleave db eventId pool schedule).1
  = (serve parseDate db (ask eventId (commits db eventId pool schedule))).1
  ∧ commits db eventId pool schedule
      ++ waiting (interleave db eventId pool schedule).2
    ≡ₚ waiting pool.
Proof.
  induction schedule as [|i rest IH]; intros db eventId pool; [done|].
  cbn [interleave commits]. destruct (pool !! i) as [f|] eqn:Hf; [|apply IH].
  destruct (advance db eventId f) as [db1 f1] eqn:Hstep.
  destruct (IH db1 eventId (<[i := f1]> pool)) as [Hstore Hperm].
  destruct f as [u|u|r].
  - destruct (advance_arrived db eventId u) as [Hdb Hf1].
    rewrite Hstep in Hdb, Hf1. cbn [fst snd] in Hdb, Hf1. subst db1.
    split.
    + rewrite Hstore, !serve_ask_snoc. done.
    + cbn [app]. rewrite (waiting_insert_arrived pool i u f1) by done.
      by constructor.
  - destruct (advance_settled db eventId (Refused u)) as [Hdb Hf1]; [done|].
    rewrite Hstep in Hdb, Hf1. cbn [fst snd] in Hdb, Hf1. subst db1.
    split; [done|]. cbn [app]. rewrite Hperm.
    by rewrite (waiting_insert_settled pool i (Refused u) f1).
  - destruct (advance_settled db eventId (Answered r)) as [Hdb Hf1]; [done|].
    rewrite Hstep in Hdb, Hf1. cbn [fst snd] in Hdb, Hf1. subst db1.
    split; [done|]. cbn [app]. rewrite Hperm.
    by rewrite (waiting_insert_settled pool i (Answered r) f1).
Qed.

(** X15. However the store calls of a set of joins on one event are
    interleaved, the collection they leave is the one that the same joins
    leave when they are served one after the other, in the order in which
    their conditional updates ran; the joins that ran theirs and the joins
    still waiting make up the joins that arrived, so once all are answered
    that order is a rearrangement of the arrivals. *)
Theorem interleave_serial (db : Store) eventId users schedule :
  let run := interleave db eventId (Arrived <$> users) schedule in
  let order := commits db eventId (Arrived <$> users) schedule in
  run.1 = (serve parseDate db (ask eventId order)).1
  ∧ order ++ waiting run.2 ≡ₚ users
  ∧ (Forall (λ f, answered f = true) run.2 → order ≡ₚ users).
Proof.
  intros run order. subst run order.
  destruct (interleave_commits schedule db eventId (Arrived <$> users))
    as [Hstore Hperm].
  rewrite waiting_arrived in Hperm. split_and!; [done..|].
  intros Hdone. by rewrite (waiting_answered _ Hdone), app_nil_r in Hperm.
Qed.

End Serial.

Lemma interleave_serial_witness :
  commits (Sample.one 1 []) Sample.party
    (Arrived <$> [Sample.alice; Sample.bob]) [1; 0; 0; 1]%nat
  ≡ₚ [Sample.alice; Sample.bob].
Proof.
  apply (interleave_serial Sample.epoch (Sample.one 1 []) Sample.party
           [Sample.alice; Sample.bob] [1; 0; 0; 1]%nat).
  vm_compute. by repeat constructor.
Defined.

(** ** The form and the server *)

Lemma digits_hex_prefix body :
  String.prefix "0x" body || String.prefix "0X" body = true →
  digits None body = Some 0%Z.
Proof.
  destruct body as [|c [|c2 rest]]; cbn [String.prefix orb].
  - done.
  - by repeat destruct (ascii_dec _ _).
  - destruct (ascii_dec "0" c) as [<-|]; [|done].
    destruct (ascii_dec "x" c2) as [<-|]; [done|].
    destruct (ascii_dec "X" c2) as [<-|]; done.
Qed.

Lemma unsigned_decimal body n :
  digits None body = Some n → n ≠ 0%Z → unsigned body = Some n.
Proof.
  intros Hn Hne. unfold unsigned.
  destruct (String.prefix "0x" body || String.prefix "0X" body) eqn:Hhex;
    [|done].
  rewrite (digits_hex_prefix body Hhex) in Hn. congruence.
Qed.

(** A capacity the server reads as a number other than 0, the form reads as
    the same number. *)
Lemma parseIntAuto_decimal s n :
  parseInt s = Some n → n ≠ 0%Z → parseIntAuto s = Some n.
Proof.
  unfold parseInt, parseIntAuto.
  destruct (trimStart s) as [|c t]; [done|].
  assert (∀ m, digits None (String c t) = Some m → m ≠ 0%Z →
               unsigned (String c t) = Some m) as Hplain
    by (intros m; apply unsigned_decimal).
  assert (∀ m, Z.opp <$> digits None t = Some m → m ≠ 0%Z →
               Z.opp <$> unsigned t = Some m) as Hminus.
  { intros m Hm Hne. destruct (digits None t) as [k|] eqn:Hk; [|done].
    injection Hm as <-. rewrite (unsigned_decimal t k); [done..|]. lia. }
  destruct c as [[] [] [] [] [] [] [] []];
    first [ apply Hplain | apply Hminus | apply unsigned_decimal ].
Qed.

Lemma given_Some_ne s : s ≠ "" → given (Some s) = Some s.
Proof. by destruct s. Qed.

Section FormProperties.

Variable browserDate : string → option Z.
Variable parseDate : string → option Z.

(** X16. A form for a new event that passes the client's validation is
    sent, and the server never answers it with the message that a field is
    missing. The server accepts it exactly when it reads the capacity as a
    number other than 0, can read the date, and the id is fresh; the
    capacity it then stores is the one the form checked, between 1 and
    10000, under the trimmed title, description and location. A capacity
    that is not a number passes the form and is answered 400. *)
Theorem validated_form_on_server (now : Z) (db : Store) user newId formData :
  validateForm browserDate now formData = true →
  let sent :=
    create_event parseDate db user newId (submitData formData)
      (f_image formData) in
  handleSubmit browserDate now user newId formData
    = Some (Create user newId (submitData formData) (f_image formData))
  ∧ sent.2 ≠ reply 400 "All fields are required"
  ∧ (status sent.2 = 201 ↔
       (∃ n, parseInt (f_capacity formData) = Some n ∧ n ≠ 0%Z)
       ∧ is_Some (parseDate (f_dateTime formData))
       ∧ db !! newId = None)
  ∧ (status sent.2 = 201 →
       ∃ new, sent.1 !! newId = Some new
         ∧ (1 ≤ capacity new ≤ 10000)%Z
         ∧ parseIntAuto (f_capacity formData) = Some (capacity new)
         ∧ title new = trim (f_title formData)
         ∧ description new = trim (f_description formData)
         ∧ location new = trim (f_location formData)
         ∧ createdBy new = user)
  ∧ (parseInt (f_capacity formData) = None →
       sent = (db, reply 400 msg_capacity)).
Proof.
  intros Hvalid sent. subst sent.
  unfold handleSubmit. rewrite Hvalid.
  unfold validateForm, validationErrors in Hvalid.
  apply bool_decide_eq_true in Hvalid. cbn in Hvalid.
  destruct Hvalid as (Htitle & Hdescription & Hdate & Hlocation & Hcapacity).
  destruct (decide (trim (f_title formData) = "")) as [|Ht]; [done|].
  destruct (decide (trim (f_description formData) = "")) as [|Hd]; [done|].
  destruct (decide (f_dateTime formData = "")) as [|Hdt]; [done|].
  destruct (decide (trim (f_location formData) = "")) as [|Hl]; [done|].
  destruct (decide (f_capacity formData = "")) as [|Hc]; [done|].
  assert (∀ n, parseInt (f_capacity formData) = Some n → n ≠ 0%Z →
               (1 ≤ n ≤ 10000)%Z
               ∧ parseIntAuto (f_capacity formData) = Some n) as Hbounds.
  { intros n Hn Hne. rewrite (parseIntAuto_decimal _ n Hn Hne) in Hcapacity |- *.
    repeat case_decide; try done. split; [lia | done]. }
  unfold create_event, submitData. cbn [b_title b_description b_dateTime
    b_location b_capacity].
  rewrite !given_Some_ne by done.
  destruct (parseInt (f_capacity formData)) as [n|] eqn:Hn.
  - destruct (decide (n = 0%Z)) as [-> | Hne].
    + cbn. split_and!; [done | done | | done | done].
      split; [done|]. by intros [(n & [= <-] & ?) _].
    + destruct (Hbounds n eq_refl Hne) as [Hrange Hauto].
      rewrite (proj2 (Z.ltb_ge n 1)) by lia.
      destruct (parseDate (f_dateTime formData)) as [when|];
        [destruct (db !! newId) eqn:Hnew|]; cbn.
      * split_and!; [done | done | | done | done].
        split; [done|]. by intros (_ & _ & ?).
      * split_and!; [done | done | | | done].
        -- split; [|done]. intros _. split_and!; [by exists n | by eexists | done].
        -- intros _. eexists. rewrite lookup_insert_eq. split; [done|]. cbn.
           done.
      * split_and!; [done | done | | done | done].
        split; [done|]. by intros (_ & [? [=]] & _).
  - cbn. split_and!; [done | done | | done | done].
    split; [done|]. by intros [(n & [=] & _) _].
Qed.

End FormProperties.

(** A capacity typed as a hexadecimal numeral passes the form, which reads
    it as 16, and is accepted by nobody: the server reads 0. *)
Lemma validated_form_on_server_witness :
  handleSubmit Sample.epoch 0 Sample.alice Sample.picnic
    (mkForm "Regatta" "A day by the sea." "2026-06-01T10:00" "Pier 7" "0x10"
            "Sports" None)
  = Some (Create Sample.alice Sample.picnic
            (mkBody (Some "Regatta") (Some "A day by the sea.")
                    (Some "2026-06-01T10:00") (Some "Pier 7") (Some "0x10")
                    (Some "Sports")) None).
Proof.
  apply (validated_form_on_server Sample.epoch Sample.epoch 0 ∅ Sample.alice
           Sample.picnic
           (mkForm "Regatta" "A day by the sea." "2026-06-01T10:00" "Pier 7"
                   "0x10" "Sports" None)).
  vm_compute. reflexivity.
Defined.

(** ** Capacity raised, attendees admitted *)

Section Admission.

Variable parseDate : string → option Z.

(** X17. When the creator's edit sets a capacity above the attendee count
    and is accepted, a join by anyone who is not an attendee, sent right
    after it, succeeds; when it sets the capacity to the attendee count, such
    a join is answered Full. *)
Theorem raised_capacity_admits (db : Store) user eventId ev b file c n joiner :
  db !! eventId = Some ev → createdBy ev = user →
  given (b_capacity b) = Some c → parseInt c = Some n →
  joiner ∉ attendees ev →
  let edited := update_event parseDate db user eventId b file in
  status edited.2 = 200 →
  ((Z.of_nat (length (attendees ev)) < n)%Z →
     succeeded (rsvp edited.1 eventId joiner).2 = true)
  ∧ (n = Z.of_nat (length (attendees ev)) →
       rsvp edited.1 eventId joiner = (edited.1, reason_response Full)).
Proof.
  intros Hev Hby Hc Hn Hout edited Hok. subst edited.
  assert (∃ ev', (update_event parseDate db user eventId b file).1 !! eventId
                 = Some ev'
                 ∧ attendees ev' = attendees ev ∧ capacity ev' = n)
    as (ev' & Hev' & Hsame & Hcap).
  { revert Hok. unfold update_event, findById.
    rewrite Hev, Hby, String.eqb_refl. cbn [negb].
    rewrite (check_capacity_given ev _ c Hc), Hn.
    destruct (decide (n < 1)%Z); [discriminate|].
    destruct (decide (n < _)%Z); [discriminate|].
    destruct (match given (b_dateTime b) with
              | Some dt => parseDate dt
              | None => Some (dateTime ev)
              end); [|discriminate].
    intros _. cbn [fst]. eexists. rewrite lookup_insert_eq. done. }
  split.
  - intros Hroom. apply rsvp_at_succeeded. exists ev'.
    rewrite Hsame, Hcap. done.
  - intros ->. unfold rsvp. rewrite rsvp_at_rejected.
    + unfold findById. rewrite Hev', rsvp_diagnose_spec, Hsame, Hcap.
      rewrite decide_False by done. by rewrite decide_True by lia.
    + intros ev0 Hev0. assert (ev0 = ev') as -> by congruence.
      right. rewrite Hsame, Hcap. lia.
Qed.

(** X18. After a sequence of joins on an event, served one after the other,
    the attendee list is the one before, followed by exactly the
    participants whose join was answered with success, in the order of
    their requests; nothing else about the event has changed. *)
Theorem joins_append_winners (db : Store) eventId ev users :
  db !! eventId = Some ev →
  let run := serve parseDate db (ask eventId users) in
  run.1 !! eventId
  = Some (set_attendees (λ l, l ++ winners users run.2) ev)
  ∧ length run.2 = length users.
Proof.
  intros Hev run. subst run. split.
  - revert db ev Hev. induction users as [|u us IH]; intros db ev Hev.
    + cbn. rewrite Hev. f_equal. rewrite <- (set_attendees_id ev) at 1.
      apply set_attendees_ext. by rewrite app_nil_r.
    + rewrite serve_ask_cons. cbn [fst snd]. unfold winners.
      cbn [zip zip_with]. unfold rsvp.
      destruct (rsvp_at_cases db eventId u) as [(ev0 & Hev0 & Hnew & Hroom)|Hno].
      * assert (ev0 = ev) as -> by congruence.
        rewrite (rsvp_at_joined _ _ _ _ ev) by done. cbn [fst snd].
        rewrite filter_cons_True by done.
        rewrite (IH _ (set_attendees (λ l, l ++ [u]) ev))
          by apply lookup_insert_eq.
        f_equal. unfold set_attendees, winners. cbn.
        by rewrite <- app_assoc.
      * rewrite rsvp_at_rejected by done. cbn [fst snd].
        rewrite filter_cons_False
          by (cbn; by rewrite rsvp_diagnose_failed).
        by apply IH.
  - unfold ask. by rewrite serve_length, length_fmap.
Qed.

End Admission.

Lemma raised_capacity_admits_witness :
  succeeded
    (rsvp (update_event Sample.epoch (Sample.one 1 [Sample.alice]) Sample.carol
             Sample.party (Sample.capacity_only "2") None).1
          Sample.party Sample.bob).2 = true.
Proof.
  apply (raised_capacity_admits Sample.epoch (Sample.one 1 [Sample.alice])
           Sample.carol Sample.party (Sample.event 1 [Sample.alice])
           (Sample.capacity_only "2") None "2" 2 Sample.bob
           eq_refl eq_refl eq_refl eq_refl).
  - apply (bool_decide_unpack _). vm_compute. exact I.
  - reflexivity.
  - simpl. lia.
Defined.

Lemma joins_append_winners_witness :
  attendees <$>
    (serve Sample.epoch (Sample.one 2 [Sample.alice])
       (ask Sample.party [Sample.bob; Sample.alice; Sample.carol])).1
      !! Sample.party
  = Some [Sample.alice; Sample.bob].
Proof.
  rewrite (proj1 (joins_append_winners Sample.epoch (Sample.one 2 [Sample.alice])
                    Sample.party (Sample.event 2 [Sample.alice])
                    [Sample.bob; Sample.alice; Sample.carol] eq_refl)).
  vm_compute. reflexivity.
Defined.

(** ** Two description generators *)

Lemma clientTryModels_server fetch models lastError description :
  clientTryModels fetch models = inl description →
  tryModels fetch models lastError = inl (Description description).
Proof.
  revert lastError. induction models as [|m models IH]; intros e; [done|].
  cbn [clientTryModels tryModels].
  destruct (fetch m) as [message | text | error].
  - destruct (isQuota (Some message)); [apply IH | done].
  - destruct (given text); [by intros [= ->] | apply IH].
  - destruct (isQuota (error ≫= id)); [apply IH | done].
Qed.

Lemma tryModels_client fetch models lastError description :
  (∀ m message, m ∈ models → fetch m = Threw message →
                isQuota (Some message) = true) →
  tryModels fetch models lastError = inl (Description description) →
  clientTryModels fetch models = inl description.
Proof.
  revert lastError. induction models as [|m models IH]; intros e Hthrows;
    [done|].
  assert (∀ e', tryModels fetch models e' = inl (Description description) →
                clientTryModels fetch models = inl description) as IH'.
  { intros e'. apply IH. intros m' message Hm'. apply Hthrows. by right. }
  cbn [clientTryModels tryModels].
  destruct (fetch m) as [message | text | error] eqn:Hm.
  - rewrite (Hthrows m message) by (done || by left). apply IH'.
  - destruct (given text); [by intros [= ->] | apply IH'].
  - destruct (isQuota (error ≫= id)); [apply IH' | done].
Qed.

(** X19. Whenever the client's generator returns a description, the
    server's route, given the same answers of the models, returns the same
    one; and when no call to a model throws for a reason other than quota,
    the two return a description in the same cases. (A call that throws for
    another reason stops the client, while the server goes on to the next
    model.) *)
Theorem generators_agree (apiKey title : option string)
    (fetch : string → Fetched) (description : string) :
  (generateDescription apiKey fetch title = inl description →
     generate_description apiKey fetch title = Description description)
  ∧ ((∀ m message, m ∈ modelsToTry → fetch m = Threw message →
                   isQuota (Some message) = true) →
     generate_description apiKey fetch title = Description description →
     generateDescription apiKey fetch title = inl description).
Proof.
  unfold generateDescription, generate_description. split.
  - destruct (given apiKey); [|done]. destruct (given title); [|done].
    intros Hclient.
    by rewrite (clientTryModels_server fetch modelsToTry None description).
  - intros Hthrows. destruct (given title); [|done].
    destruct (given apiKey); [|done].
    destruct (tryModels fetch modelsToTry None) as [sent|e] eqn:Hloop.
    + intros ->. by apply (tryModels_client fetch modelsToTry None).
    + intros Hafter. exfalso. destruct e as [message|]; cbn in Hafter;
        repeat case_match; discriminate.
Qed.

(** The first model is out of quota: client and server alike go on to the
    second. *)
Lemma generators_agree_witness :
  generateDescription (Some "key")
    (λ m, if String.eqb m "gemini-flash-latest"
          then Rejected (Some (Some "You exceeded your current quota"))
          else Generated (Some "A day by the sea."))
    (Some "Regatta")
  = inl "A day by the sea.".
Proof.
  apply generators_agree.
  - intros m message _. by destruct (String.eqb m "gemini-flash-latest").
  - vm_compute. reflexivity.
Defined.
